(** * Clementine: command line options (src/commandlineoptions.cpp)

    A shallow embedding of [CommandlineOptions]: the option scanner loop of
    [Parse], the emptiness test [is_empty], and the [QDataStream] operators
    behind [Serialize] and [Load].

    The file follows the source: the data ([QUrl], [CommandlineOptions]),
    the stream operators, then the library routines [Parse] relies on
    ([getopt_long] of the GNU C library, [QString::toInt]), then [Parse]
    itself.  After them come the notions the properties are stated with
    (the flags as the help text lists them, the fields they set), and the
    properties.

    Conventions.
    - A C++ [int] / [qint32] is a [Z]; the 32-bit wrap-around of the wire
      format is written out in [qint32_of_quint32].
    - [argc_]/[argv_] are one [list string]; [argc_] is its length.  Indices
      into [argv_] ([optind], [option_index], the loop counter) are [nat].
    - [QString], [char*] and [QByteArray] contents are [string]s of 8-bit
      characters; [QString::fromLocal8Bit] is the identity on them.
    - A [QUrl] is represented by its encoded form ([QUrl::toEncoded]);
      percent-encoding and normalisation are left to Qt.
    - [Parse] mutates the object and writes to standard output: it is a
      function from the object to the value returned, the object afterwards
      and the text written. *)

From Stdlib Require Import ZArith List String Ascii Bool Lia Arith.
From Stdlib.Strings Require Import Byte.
From Stdlib Require Import Permutation.
Import ListNotations.
Local Open Scope string_scope.
Local Open Scope list_scope.
Local Open Scope Z_scope.

(** ** Enumerations of commandlineoptions.h *)

(** Modelled from the spec: the header commandlineoptions.h that declares
    [enum UrlListAction] is missing; the spec gives its values in order
    (Append, Load) and says they are stored as their ordinals.  The field is
    kept as the underlying integer because [operator>>] writes any [qint32]
    into it through a [reinterpret_cast]. *)
Definition UrlListAction := Z.
Definition UrlList_Append : UrlListAction := 0.
Definition UrlList_Load : UrlListAction := 1.

(** Modelled from the spec: the header commandlineoptions.h that declares
    [enum PlayerAction] is missing; the spec lists None, Play, PlayPause,
    Pause, Stop, Previous, Next, with ordinals in that order. *)
Definition PlayerAction := Z.
Definition Player_None : PlayerAction := 0.
Definition Player_Play : PlayerAction := 1.
Definition Player_PlayPause : PlayerAction := 2.
Definition Player_Pause : PlayerAction := 3.
Definition Player_Stop : PlayerAction := 4.
Definition Player_Previous : PlayerAction := 5.
Definition Player_Next : PlayerAction := 6.

(** Modelled from the spec: [enum LongOptions] of the missing header names
    the long options that have no short form (--volume-up, --volume-down,
    --seek-to).  Their values are the [val] that [getopt_long] returns for
    them; they lie above the character range, so that they differ from every
    short option character, from ['?'] and from -1. *)
Definition VolumeUp : Z := 256.
Definition VolumeDown : Z := 257.
Definition SeekTo : Z := 258.

(** ** Strings *)

Definition chr (c : ascii) : Z := Z.of_N (N_of_ascii c).

Fixpoint contains (sub s : string) : bool :=
  prefix sub s ||
  match s with
  | EmptyString => false
  | String _ s' => contains sub s'
  end.

(** ** QUrl *)

Record QUrl := mkQUrl { toEncoded : string }.

(** [QUrl(const QString&)], the conversion used by [urls_ << value]. *)
Definition QUrl_of_QString (s : string) : QUrl := mkQUrl s.
Definition QUrl_fromEncoded (s : string) : QUrl := mkQUrl s.
Definition QUrl_fromLocalFile (path : string) : QUrl := mkQUrl ("file://" ++ path)%string.

(** ** The options object *)

Record CommandlineOptions := mkOptions {
  argv_ : list string;
  url_list_action_ : UrlListAction;
  player_action_ : PlayerAction;
  set_volume_ : Z;
  volume_modifier_ : Z;
  seek_to_ : Z;
  play_track_at_ : Z;
  show_osd_ : bool;
  urls_ : list QUrl
}.

Definition argc_ (a : CommandlineOptions) : nat := List.length (argv_ a).

(** [CommandlineOptions::CommandlineOptions(int argc, char** argv)]. *)
Definition CommandlineOptions_new (argv : list string) : CommandlineOptions :=
  {| argv_ := argv;
     url_list_action_ := UrlList_Append;
     player_action_ := Player_None;
     set_volume_ := -1;
     volume_modifier_ := 0;
     seek_to_ := -1;
     play_track_at_ := -1;
     show_osd_ := false;
     urls_ := [] |}.

Definition isEmpty {A} (l : list A) : bool :=
  match l with [] => true | _ => false end.

(** [CommandlineOptions::is_empty]. *)
Definition is_empty (a : CommandlineOptions) : bool :=
  (player_action_ a =? Player_None) &&
  (set_volume_ a =? -1) &&
  (volume_modifier_ a =? 0) &&
  (seek_to_ a =? -1) &&
  (play_track_at_ a =? -1) &&
  Bool.eqb (show_osd_ a) false &&
  isEmpty (urls_ a).

(** ** QDataStream

    The stream is the list of bytes still to be read (or written so far).
    Qt's default byte order is big endian.  A read past the end yields the
    zero value and leaves the stream exhausted, as [QDataStream] does after
    a short [QIODevice::read]; [Load] never looks at the stream status. *)

Definition Z_of_byte (b : byte) : Z := Z.of_N (Byte.to_N b).

Definition byte_of_Z (z : Z) : byte :=
  match Byte.of_N (Z.to_N (Z.land z 255)) with
  | Some b => b
  | None => x00
  end.

(** [operator<<(qint32)]: the four bytes of the two's complement value. *)
Definition write_qint32 (i : Z) : list byte :=
  [byte_of_Z (Z.shiftr i 24); byte_of_Z (Z.shiftr i 16);
   byte_of_Z (Z.shiftr i 8); byte_of_Z i].

Definition write_quint32 (i : Z) : list byte := write_qint32 i.

Definition write_bool (b : bool) : list byte :=
  [byte_of_Z (if b then 1 else 0)].

Definition Reader (A : Type) : Type := list byte -> A * list byte.

Definition ret {A} (x : A) : Reader A := fun s => (x, s).

Definition bind {A B} (m : Reader A) (k : A -> Reader B) : Reader B :=
  fun s => let (x, s') := m s in k x s'.

Notation "x <- m ;; k" := (bind m (fun x => k))
  (at level 61, m at next level, right associativity).

Definition atEnd : Reader bool := fun s => (isEmpty s, s).

Definition read_quint32 : Reader Z := fun s =>
  match s with
  | b3 :: b2 :: b1 :: b0 :: s' =>
      (Z.lor (Z.shiftl (Z_of_byte b3) 24)
         (Z.lor (Z.shiftl (Z_of_byte b2) 16)
            (Z.lor (Z.shiftl (Z_of_byte b1) 8) (Z_of_byte b0))), s')
  | _ => (0, [])
  end.

(** Reinterpretation of the 32 bits as a signed value. *)
Definition qint32_of_quint32 (u : Z) : Z :=
  if u <? 2 ^ 31 then u else u - 2 ^ 32.

Definition read_qint32 : Reader Z :=
  u <- read_quint32 ;; ret (qint32_of_quint32 u).

(** [operator>>(bool&)] reads a [qint8] and stores [!!v]. *)
Definition read_bool : Reader bool := fun s =>
  match s with
  | b :: s' => (negb (Z_of_byte b =? 0), s')
  | [] => (false, [])
  end.

(** [operator<<(QDataStream&, const QByteArray&)]: a null array is the
    length 0xffffffff alone; otherwise the length and the bytes.  The empty
    string stands for the null array. *)
Definition write_QByteArray (ba : string) : list byte :=
  match ba with
  | EmptyString => write_quint32 4294967295
  | _ => write_quint32 (Z.of_nat (String.length ba)) ++ list_byte_of_string ba
  end.

(** [operator>>(QDataStream&, QByteArray&)]: on a short read the array is
    cleared and whatever was left of the stream has been consumed. *)
Definition read_QByteArray : Reader string :=
  len <- read_quint32 ;;
  if len =? 4294967295 then ret EmptyString
  else fun s =>
    if (Z.to_nat len <=? List.length s)%nat
    then (string_of_list_byte (firstn (Z.to_nat len) s), skipn (Z.to_nat len) s)
    else (EmptyString, []).

(** [operator<<(QDataStream&, const QUrl&)] writes [url.toEncoded()]. *)
Definition write_QUrl (u : QUrl) : list byte := write_QByteArray (toEncoded u).

Definition read_QUrl : Reader QUrl :=
  u <- read_QByteArray ;; ret (QUrl_fromEncoded u).

(** [operator<<(QDataStream&, const QList<T>&)]. *)
Definition write_QList (l : list QUrl) : list byte :=
  write_quint32 (Z.of_nat (List.length l)) ++ List.concat (map write_QUrl l).

(** The loop of [operator>>(QDataStream&, QList<T>&)]: [c] elements are
    still to be read and [l] holds those read so far; it breaks as soon as
    the stream is at its end. *)
Fixpoint read_QList_loop (c : nat) (l : list QUrl) : Reader (list QUrl) :=
  match c with
  | O => ret l
  | S c' =>
      t <- read_QUrl ;;
      e <- atEnd ;;
      if e then ret (l ++ [t]) else read_QList_loop c' (l ++ [t])
  end.

Definition read_QList : Reader (list QUrl) :=
  c <- read_quint32 ;; read_QList_loop (Z.to_nat c) [].

(** [operator<<(QDataStream&, const CommandlineOptions&)]. *)
Definition stream_out (a : CommandlineOptions) : list byte :=
  write_qint32 (player_action_ a) ++
  write_qint32 (url_list_action_ a) ++
  write_qint32 (set_volume_ a) ++
  write_qint32 (volume_modifier_ a) ++
  write_qint32 (seek_to_ a) ++
  write_qint32 (play_track_at_ a) ++
  write_bool (show_osd_ a) ++
  write_QList (urls_ a).

(** [operator>>(QDataStream&, CommandlineOptions&)]: every field but
    [argc_]/[argv_] is overwritten. *)
Definition stream_in (a : CommandlineOptions) : Reader CommandlineOptions :=
  pa <- read_qint32 ;;
  ula <- read_qint32 ;;
  sv <- read_qint32 ;;
  vm <- read_qint32 ;;
  st <- read_qint32 ;;
  pta <- read_qint32 ;;
  so <- read_bool ;;
  us <- read_QList ;;
  ret {| argv_ := argv_ a;
         url_list_action_ := ula;
         player_action_ := pa;
         set_volume_ := sv;
         volume_modifier_ := vm;
         seek_to_ := st;
         play_track_at_ := pta;
         show_osd_ := so;
         urls_ := us |}.

(** [CommandlineOptions::Serialize]. *)
Definition Serialize (a : CommandlineOptions) : list byte := stream_out a.

(** [CommandlineOptions::Load]. *)
Definition Load (serialized : list byte) (a : CommandlineOptions)
  : CommandlineOptions :=
  fst (stream_in a serialized).

(** ** getopt_long

    The scanner of the GNU C library (posix/getopt.c), which [Parse] calls
    with the short options ["hptusrfv:alk:o"] and the table [kOptions].  The
    option string starts with neither ['+'] nor ['-'] and POSIXLY_CORRECT is
    taken as unset, so the ordering is PERMUTE.  The state [getopt_data] is
    the library's global state together with the [argv] it permutes in
    place; a null and an exhausted [nextchar] are both the empty string.
    The messages on standard error are not modelled. *)

Record struct_option := mkOption {
  name : string;
  has_arg : Z;
  val : Z
}.

Definition no_argument : Z := 0.
Definition required_argument : Z := 1.
Definition optional_argument : Z := 2.

Record getopt_data := mkData {
  argv : list string;
  optind : nat;
  optarg : option string;
  nextchar : string;
  first_nonopt : nat;
  last_nonopt : nat
}.

Definition set_argv (v : list string) (d : getopt_data) : getopt_data :=
  mkData v (optind d) (optarg d) (nextchar d) (first_nonopt d) (last_nonopt d).
Definition set_optind (n : nat) (d : getopt_data) : getopt_data :=
  mkData (argv d) n (optarg d) (nextchar d) (first_nonopt d) (last_nonopt d).
Definition set_optarg (o : option string) (d : getopt_data) : getopt_data :=
  mkData (argv d) (optind d) o (nextchar d) (first_nonopt d) (last_nonopt d).
Definition set_nextchar (s : string) (d : getopt_data) : getopt_data :=
  mkData (argv d) (optind d) (optarg d) s (first_nonopt d) (last_nonopt d).
Definition set_first_nonopt (n : nat) (d : getopt_data) : getopt_data :=
  mkData (argv d) (optind d) (optarg d) (nextchar d) n (last_nonopt d).
Definition set_last_nonopt (n : nat) (d : getopt_data) : getopt_data :=
  mkData (argv d) (optind d) (optarg d) (nextchar d) (first_nonopt d) n.

(** The state of the first call: [optind] is 1 and nothing was skipped. *)
Definition getopt_initialize (v : list string) : getopt_data :=
  mkData v 1 None "" 1 1.

Definition argc (d : getopt_data) : nat := List.length (argv d).

(** [argv[i]]; only used with [i < argc]. *)
Definition arg_at (d : getopt_data) (i : nat) : string := nth i (argv d) "".

(** [argv[optind][0] != '-' || argv[optind][1] == '\0']. *)
Definition NONOPTION_P (s : string) : bool :=
  match s with
  | String "-" EmptyString => true
  | String "-" _ => false
  | _ => true
  end.

Fixpoint strchr (s : string) (c : ascii) : option string :=
  match s with
  | EmptyString => None
  | String c' s' => if Ascii.eqb c' c then Some s else strchr s' c
  end.

Definition segment {A} (from to : nat) (l : list A) : list A :=
  firstn (to - from) (skipn from l).

(** [exchange]: the non-options in [first_nonopt, last_nonopt) and the
    options in [last_nonopt, optind) trade places, each block keeping its
    order (the result of the library's block swaps). *)
Definition exchange (d : getopt_data) : getopt_data :=
  let bottom := first_nonopt d in
  let middle := last_nonopt d in
  let top := optind d in
  let v := argv d in
  let v' := firstn bottom v ++ segment middle top v ++ segment bottom middle v
            ++ skipn top v in
  set_last_nonopt top
    (set_first_nonopt (bottom + (top - middle))%nat (set_argv v' d)).

(** [while (optind < argc && NONOPTION_P) optind++], on the arguments from
    [optind] on. *)
Fixpoint skip_nonoptions (rest : list string) (i : nat) : nat :=
  match rest with
  | s :: rest' => if NONOPTION_P s then skip_nonoptions rest' (S i) else i
  | [] => i
  end.

(** The name of a long option ends at ['='] or at the end of the word. *)
Fixpoint nameend (s : string) : string * option string :=
  match s with
  | EmptyString => (EmptyString, None)
  | String c s' =>
      if Ascii.eqb c "=" then (EmptyString, Some s')
      else let (n, v) := nameend s' in (String c n, v)
  end.

(** First loop of [process_long_option]: an exact match. *)
Fixpoint find_exact (longopts : list struct_option) (nm : string) (i : nat)
  : option (nat * struct_option) :=
  match longopts with
  | [] => None
  | p :: ps => if String.eqb (name p) nm then Some (i, p)
               else find_exact ps nm (S i)
  end.

(** Second loop: abbreviations.  The first table entry that [nm] is a
    prefix of is kept; a later one that differs in [has_arg] or [val] makes
    the abbreviation ambiguous (no entry has a [flag] pointer). *)
Fixpoint find_abbrev (longopts : list struct_option) (nm : string) (i : nat)
    (pfound : option (nat * struct_option)) (ambig : bool)
  : option (nat * struct_option) * bool :=
  match longopts with
  | [] => (pfound, ambig)
  | p :: ps =>
      if prefix nm (name p) then
        match pfound with
        | None => find_abbrev ps nm (S i) (Some (i, p)) ambig
        | Some (_, q) =>
            if negb (has_arg q =? has_arg p) || negb (val q =? val p)
            then find_abbrev ps nm (S i) pfound true
            else find_abbrev ps nm (S i) pfound ambig
        end
      else find_abbrev ps nm (S i) pfound ambig
  end.

Definition QUESTION : Z := chr "?".

(** [process_long_option], entered with [nextchar] just after the ["--"]. *)
Definition process_long_option (longopts : list struct_option)
    (d : getopt_data) (longind : nat) : Z * getopt_data * nat :=
  let (nm, value) := nameend (nextchar d) in
  let (pfound, ambig) :=
    match find_exact longopts nm 0 with
    | Some f => (Some f, false)
    | None => find_abbrev longopts nm 0 None false
    end in
  let d := set_nextchar "" (set_optind (S (optind d)) d) in
  if ambig then (QUESTION, d, longind)
  else
    match pfound with
    | None => (QUESTION, d, longind)
    | Some (option_index, p) =>
        match value with
        | Some v =>
            if has_arg p =? no_argument then (QUESTION, d, longind)
            else (val p, set_optarg (Some v) d, option_index)
        | None =>
            if has_arg p =? required_argument then
              if (optind d <? argc d)%nat then
                (val p,
                 set_optind (S (optind d))
                   (set_optarg (Some (arg_at d (optind d))) d),
                 option_index)
              else (QUESTION, d, longind)
            else (val p, d, option_index)
        end
    end.

(** The short option block of [_getopt_internal_r]: the character [c] has
    been read from [nextchar], of which [rest] is left.  The option string
    of [Parse] has no ["W;"]. *)
Definition getopt_short (optstring : string) (c : ascii) (rest : string)
    (d : getopt_data) : Z * getopt_data :=
  let d := set_nextchar rest d in
  let d := match rest with
           | EmptyString => set_optind (S (optind d)) d
           | _ => d
           end in
  match strchr optstring c with
  | None => (QUESTION, d)
  | Some temp =>
      if Ascii.eqb c ":" || Ascii.eqb c ";" then (QUESTION, d)
      else
        match temp with
        | String _ (String ":" (String ":" _)) =>
            (* an argument is accepted optionally *)
            match rest with
            | EmptyString => (chr c, set_nextchar "" (set_optarg None d))
            | _ => (chr c, set_nextchar ""
                             (set_optind (S (optind d))
                                (set_optarg (Some rest) d)))
            end
        | String _ (String ":" _) =>
            (* an argument is required *)
            match rest with
            | EmptyString =>
                if (optind d =? argc d)%nat
                then (QUESTION, set_nextchar "" d)
                else (chr c, set_nextchar ""
                               (set_optind (S (optind d))
                                  (set_optarg (Some (arg_at d (optind d))) d)))
            | _ => (chr c, set_nextchar ""
                             (set_optind (S (optind d))
                                (set_optarg (Some rest) d)))
            end
        | _ => (chr c, d)
        end
  end.

(** The "--" element: it is skipped like an option, exchanged with the
    non-options before it, and everything after it is a non-option. *)
Definition end_of_options (d : getopt_data) : getopt_data :=
  if negb (optind d =? argc d)%nat && String.eqb (arg_at d (optind d)) "--"
  then
    let d := set_optind (S (optind d)) d in
    let d :=
      if negb (first_nonopt d =? last_nonopt d)%nat
         && negb (last_nonopt d =? optind d)%nat
      then exchange d
      else if (first_nonopt d =? last_nonopt d)%nat
           then set_first_nonopt (optind d) d
           else d in
    set_optind (argc d) (set_last_nonopt (argc d) d)
  else d.

(** Advance to the next [argv] element under PERMUTE: exchange what was
    just processed with the non-options skipped before it, then skip the
    non-options that follow. *)
Definition permute (d : getopt_data) : getopt_data :=
  let d := if (optind d <? last_nonopt d)%nat
           then set_last_nonopt (optind d) d else d in
  let d := if (optind d <? first_nonopt d)%nat
           then set_first_nonopt (optind d) d else d in
  let d :=
    if negb (first_nonopt d =? last_nonopt d)%nat
       && negb (last_nonopt d =? optind d)%nat
    then exchange d
    else if negb (last_nonopt d =? optind d)%nat
         then set_first_nonopt (optind d) d
         else d in
  let d := set_optind (skip_nonoptions (skipn (optind d) (argv d)) (optind d)) d in
  set_last_nonopt (optind d) d.

(** One call of [getopt_long]: the value returned, the new state and the
    new content of [*longind]. *)
Definition getopt_long (optstring : string) (longopts : list struct_option)
    (d : getopt_data) (longind : nat) : Z * getopt_data * nat :=
  if (argc d <? 1)%nat then (-1, d, longind)
  else
    let d := set_optarg None d in
    match nextchar d with
    | String c rest =>
        let (r, d) := getopt_short optstring c rest d in (r, d, longind)
    | EmptyString =>
        let d := end_of_options (permute d) in
        if (optind d =? argc d)%nat then
          (-1,
           (if negb (first_nonopt d =? last_nonopt d)%nat
            then set_optind (first_nonopt d) d else d),
           longind)
        else if NONOPTION_P (arg_at d (optind d)) then
          (1, set_optind (S (optind d))
                (set_optarg (Some (arg_at d (optind d))) d), longind)
        else
          match arg_at d (optind d) with
          | String _ (String "-" nm) =>
              process_long_option longopts (set_nextchar nm d) longind
          | String _ (String c rest) =>
              let (r, d) := getopt_short optstring c rest d in (r, d, longind)
          | _ => (QUESTION, d, longind) (* not reached: NONOPTION_P is false *)
          end
    end.

(** ** QString::toInt

    Base 10 in the C locale: white space around the number is ignored, a
    sign may precede the digits, and the value has to fit an [int]; on
    failure the result is 0 and [ok] is false. *)

Definition isSpace (c : ascii) : bool :=
  let n := N_of_ascii c in
  (n =? 32)%N || ((9 <=? n)%N && (n <=? 13)%N).

Definition isDigit (c : ascii) : bool :=
  let n := N_of_ascii c in (48 <=? n)%N && (n <=? 57)%N.

Fixpoint all_space (s : string) : bool :=
  match s with
  | EmptyString => true
  | String c s' => isSpace c && all_space s'
  end.

Fixpoint skip_space (s : string) : string :=
  match s with
  | String c s' => if isSpace c then skip_space s' else s
  | EmptyString => s
  end.

(** Digits read so far give [acc]; [seen] tells whether there was one. *)
Fixpoint digits (s : string) (acc : Z) (seen : bool) : option Z :=
  match s with
  | EmptyString => if seen then Some acc else None
  | String c s' =>
      if isDigit c then digits s' (10 * acc + (chr c - 48)) true
      else if seen && all_space s then Some acc else None
  end.

Definition toLongLong (s : string) : option Z :=
  match skip_space s with
  | String "-" s' => option_map Z.opp (digits s' 0 false)
  | String "+" s' => digits s' 0 false
  | s' => digits s' 0 false
  end.

Definition toInt (s : option string) : Z * bool :=
  match s with
  | None => (0, false)
  | Some s =>
      match toLongLong s with
      | Some v => if (v <? - 2 ^ 31) || (2 ^ 31 - 1 <? v) then (0, false)
                  else (v, true)
      | None => (0, false)
      end
  end.

(** ** CommandlineOptions::Parse *)

Definition kOptions : list struct_option :=
  [ mkOption "help" no_argument (chr "h");
    mkOption "play" no_argument (chr "p");
    mkOption "play-pause" no_argument (chr "t");
    mkOption "pause" no_argument (chr "u");
    mkOption "stop" no_argument (chr "s");
    mkOption "previous" no_argument (chr "r");
    mkOption "next" no_argument (chr "f");
    mkOption "volume" required_argument (chr "v");
    mkOption "volume-up" no_argument VolumeUp;
    mkOption "volume-down" no_argument VolumeDown;
    mkOption "seek-to" required_argument SeekTo;
    mkOption "append" no_argument (chr "a");
    mkOption "load" no_argument (chr "l");
    mkOption "play-track" required_argument (chr "k");
    mkOption "show-osd" no_argument (chr "o") ].

Definition kOptstring : string := "hptusrfv:alk:o".

Definition kHelpText : string :=
  "%1: clementine [%2] [%3]
" ++ "
" ++ "%4:
" ++ "  -p, --play                %5
" ++ "  -t, --play-pause          %6
" ++ "  -u, --pause               %7
" ++ "  -s, --stop                %8
" ++ "  -r, --previous            %9
" ++ "  -f, --next                %10
" ++ "  -v, --volume <value>      %11
" ++ "  --volume-up               %12
" ++ "  --volume-down             %13
" ++ "  --seek-to <seconds>       %14
" ++ "
" ++ "%15:
" ++ "  -a, --append              %16
" ++ "  -l, --load                %17
" ++ "  -k, --play-track <n>      %18
" ++ "
" ++ "%19:
" ++ "  -o, --show-osd            %20
".

(** What [Parse] writes to standard output: the help template with the
    labels that fill its slots, in order. *)
Record HelpText := mkHelp { template : string; labels : list string }.

Definition set_url_list_action (x : UrlListAction) (a : CommandlineOptions) :=
  mkOptions (argv_ a) x (player_action_ a) (set_volume_ a)
    (volume_modifier_ a) (seek_to_ a) (play_track_at_ a) (show_osd_ a) (urls_ a).
Definition set_player_action (x : PlayerAction) (a : CommandlineOptions) :=
  mkOptions (argv_ a) (url_list_action_ a) x (set_volume_ a)
    (volume_modifier_ a) (seek_to_ a) (play_track_at_ a) (show_osd_ a) (urls_ a).
Definition set_set_volume (x : Z) (a : CommandlineOptions) :=
  mkOptions (argv_ a) (url_list_action_ a) (player_action_ a) x
    (volume_modifier_ a) (seek_to_ a) (play_track_at_ a) (show_osd_ a) (urls_ a).
Definition set_volume_modifier (x : Z) (a : CommandlineOptions) :=
  mkOptions (argv_ a) (url_list_action_ a) (player_action_ a) (set_volume_ a)
    x (seek_to_ a) (play_track_at_ a) (show_osd_ a) (urls_ a).
Definition set_seek_to (x : Z) (a : CommandlineOptions) :=
  mkOptions (argv_ a) (url_list_action_ a) (player_action_ a) (set_volume_ a)
    (volume_modifier_ a) x (play_track_at_ a) (show_osd_ a) (urls_ a).
Definition set_play_track_at (x : Z) (a : CommandlineOptions) :=
  mkOptions (argv_ a) (url_list_action_ a) (player_action_ a) (set_volume_ a)
    (volume_modifier_ a) (seek_to_ a) x (show_osd_ a) (urls_ a).
Definition set_show_osd (x : bool) (a : CommandlineOptions) :=
  mkOptions (argv_ a) (url_list_action_ a) (player_action_ a) (set_volume_ a)
    (volume_modifier_ a) (seek_to_ a) (play_track_at_ a) x (urls_ a).
Definition set_urls (x : list QUrl) (a : CommandlineOptions) :=
  mkOptions (argv_ a) (url_list_action_ a) (player_action_ a) (set_volume_ a)
    (volume_modifier_ a) (seek_to_ a) (play_track_at_ a) (show_osd_ a) x.
Definition set_argv_ (x : list string) (a : CommandlineOptions) :=
  mkOptions x (url_list_action_ a) (player_action_ a) (set_volume_ a)
    (volume_modifier_ a) (seek_to_ a) (play_track_at_ a) (show_osd_ a) (urls_ a).

(** [x = QString(optarg).toInt(&ok); if (!ok) x = -1;] *)
Definition toInt_or_sentinel (optarg : option string) : Z :=
  let (v, ok) := toInt optarg in if ok then v else -1.

Section Parse.

(** [QObject::tr], the translation of a label. *)
Variable tr : string -> string.

(** [QFileInfo(value).absoluteFilePath()], which depends on the directory
    the process runs in. *)
Variable absoluteFilePath : string -> string.

Definition translated_help_text : HelpText :=
  mkHelp kHelpText
    (map tr
       [ "Usage"; "options"; "URL(s)"; "Player options";
         "Start the playlist currently playing";
         "Play if stopped, pause if playing";
         "Pause playback";
         "Stop playback";
         "Skip backwards in playlist";
         "Skip forwards in playlist";
         "Set the volume to <value> percent";
         "Increase the volume by 4%";
         "Decrease the volume by 4%";
         "Seek the currently playing track";
         "Playlist options";
         "Append files/URLs to the playlist";
         "Loads files/URLs, replacing current playlist";
         "Play the <n>th track in the playlist";
         "Other options";
         "Display the on-screen-display" ]).

(** The body of the [switch]: either the loop goes on with the updated
    object, or [Parse] returns false, after the help text in case ['h']. *)
Inductive switch_result :=
| Continue (a : CommandlineOptions)
| ReturnFalse (out : list HelpText).

Definition Parse_switch (c : Z) (optarg : option string)
    (a : CommandlineOptions) : switch_result :=
  if c =? chr "h" then ReturnFalse [translated_help_text]
  else if c =? chr "p" then Continue (set_player_action Player_Play a)
  else if c =? chr "t" then Continue (set_player_action Player_PlayPause a)
  else if c =? chr "u" then Continue (set_player_action Player_Pause a)
  else if c =? chr "s" then Continue (set_player_action Player_Stop a)
  else if c =? chr "r" then Continue (set_player_action Player_Previous a)
  else if c =? chr "f" then Continue (set_player_action Player_Next a)
  else if c =? chr "a" then Continue (set_url_list_action UrlList_Append a)
  else if c =? chr "l" then Continue (set_url_list_action UrlList_Load a)
  else if c =? chr "o" then Continue (set_show_osd true a)
  else if c =? VolumeUp then Continue (set_volume_modifier 4 a)
  else if c =? VolumeDown then Continue (set_volume_modifier (-4) a)
  else if c =? chr "v" then Continue (set_set_volume (toInt_or_sentinel optarg) a)
  else if c =? SeekTo then Continue (set_seek_to (toInt_or_sentinel optarg) a)
  else if c =? chr "k" then Continue (set_play_track_at (toInt_or_sentinel optarg) a)
  else ReturnFalse [].

(** How the [forever] loop is left. *)
Inductive loop_exit :=
| Break (d : getopt_data) (option_index : nat) (a : CommandlineOptions)
| Return (d : getopt_data) (a : CommandlineOptions) (out : list HelpText).

Fixpoint Parse_loop (fuel : nat) (d : getopt_data) (option_index : nat)
    (a : CommandlineOptions) : option loop_exit :=
  match fuel with
  | O => None
  | S fuel' =>
      let '(c, d', option_index') := getopt_long kOptstring kOptions d option_index in
      if c =? -1 then Some (Break d' option_index' a)
      else
        match Parse_switch c (optarg d') a with
        | Continue a' => Parse_loop fuel' d' option_index' a'
        | ReturnFalse out => Some (Return d' a out)
        end
  end.

(** The body of the [for] loop over the remaining arguments. *)
Definition add_url (urls : list QUrl) (value : string) : list QUrl :=
  if contains "://" value
  then urls ++ [QUrl_of_QString value]
  else urls ++ [QUrl_fromLocalFile (absoluteFilePath value)].

(** [for (int i = option_index + 1; i < argc_; ++i)]. *)
Definition Parse_urls (option_index : nat) (v : list string)
    (urls : list QUrl) : list QUrl :=
  fold_left add_url (skipn (option_index + 1) v) urls.

(** The characters and elements of an argument vector.  Every call of
    [getopt_long] but the last consumes one of them, so one iteration more
    than that is enough (see [Parse_terminates]). *)
Definition weight (l : list string) : nat :=
  fold_right (fun s n => S (String.length s) + n)%nat O l.

Definition Parse_fuel (v : list string) : nat := S (weight v).

(** [Parse]: the result ([None] only if the loop were cut short), the
    object afterwards, and what was written to standard output. *)
Definition Parse (a : CommandlineOptions)
  : option (bool * CommandlineOptions * list HelpText) :=
  match Parse_loop (Parse_fuel (argv_ a)) (getopt_initialize (argv_ a)) 0%nat a with
  | None => None
  | Some (Return d a' out) => Some (false, set_argv_ (argv d) a', out)
  | Some (Break d option_index a') =>
      let a' := set_argv_ (argv d) a' in
      Some (true, set_urls (Parse_urls option_index (argv_ a') (urls_ a')) a', [])
  end.

End Parse.

(** ** Values the wire format can carry *)

Definition is_qint32 (i : Z) : Prop := - 2 ^ 31 <= i < 2 ^ 31.

Definition fits (n : nat) : Prop := Z.of_nat n < 2 ^ 31.

Definition url_fits (u : QUrl) : Prop := fits (String.length (toEncoded u)).

(** The values the wire format can carry: every integer field is a 32-bit
    [int], and the sizes of the URL list and of every URL fit an [int], as
    the sizes of a [QList] and of a [QByteArray] do. *)
Record representable (a : CommandlineOptions) : Prop := {
  rep_player_action : is_qint32 (player_action_ a);
  rep_url_list_action : is_qint32 (url_list_action_ a);
  rep_set_volume : is_qint32 (set_volume_ a);
  rep_volume_modifier : is_qint32 (volume_modifier_ a);
  rep_seek_to : is_qint32 (seek_to_ a);
  rep_play_track_at : is_qint32 (play_track_at_ a);
  rep_urls_size : fits (List.length (urls_ a));
  rep_urls : Forall url_fits (urls_ a)
}.


(** ** Termination of the scanner loop

    [measure] counts what is left to scan: the characters and elements of
    [argv] from [optind] on, or, inside a cluster of short options, the
    rest of the cluster and the elements after it. *)

Definition measure (d : getopt_data) : nat :=
  match nextchar d with
  | EmptyString => weight (skipn (optind d) (argv d))
  | nc => (String.length nc + weight (skipn (S (optind d)) (argv d)))%nat
  end.

(** What holds of the state between two calls of [getopt_long]. *)
Record scanning (d : getopt_data) : Prop := {
  scan_first : (first_nonopt d <= last_nonopt d)%nat;
  scan_last : (last_nonopt d <= optind d)%nat;
  scan_optind : (optind d <= argc d)%nat;
  scan_nextchar : nextchar d <> "" -> (optind d < argc d)%nat
}.

(** The second half of [permute]: skipping the non-options. *)
Definition skip_step (d : getopt_data) : getopt_data :=
  let d := set_optind (skip_nonoptions (skipn (optind d) (argv d)) (optind d)) d in
  set_last_nonopt (optind d) d.


(** ** The flags as they are written

    The flags of [kHelpText], each with the argument it takes, the ways it
    is spelled on the command line and what it stands for.  They are what
    the properties of [Parse] are stated with; [Parse_switch_code] and
    [getopt_long_flag] relate them to the [switch] and to the scanner. *)

Inductive flag :=
| F_play | F_play_pause | F_pause | F_stop | F_previous | F_next
| F_volume (value : string) | F_volume_up | F_volume_down
| F_seek_to (seconds : string)
| F_append | F_load | F_play_track (n : string) | F_show_osd.

Definition long_name (f : flag) : string :=
  match f with
  | F_play => "play" | F_play_pause => "play-pause" | F_pause => "pause"
  | F_stop => "stop" | F_previous => "previous" | F_next => "next"
  | F_volume _ => "volume" | F_volume_up => "volume-up"
  | F_volume_down => "volume-down" | F_seek_to _ => "seek-to"
  | F_append => "append" | F_load => "load"
  | F_play_track _ => "play-track" | F_show_osd => "show-osd"
  end.

Definition short_name (f : flag) : option ascii :=
  match f with
  | F_play => Some "p" | F_play_pause => Some "t" | F_pause => Some "u"
  | F_stop => Some "s" | F_previous => Some "r" | F_next => Some "f"
  | F_volume _ => Some "v" | F_append => Some "a" | F_load => Some "l"
  | F_play_track _ => Some "k" | F_show_osd => Some "o"
  | F_volume_up | F_volume_down | F_seek_to _ => None
  end%char.

Definition argument (f : flag) : option string :=
  match f with
  | F_volume v | F_seek_to v | F_play_track v => Some v
  | _ => None
  end.

(** [Short]: ["-v"; value], or the long spelling where the flag has no
    letter.  [Long]: ["--volume"; value].  [Equals]: ["--volume=value"]. *)
Inductive spelling := Short | Long | Equals.

(** A command line is made of flags and of operands, the file names and
    URLs, in any order. *)
Inductive word :=
| Flag (sp : spelling) (f : flag)
| Operand (s : string).

(** An operand does not start with a dash, unless it is the dash alone. *)
Definition well_formed (w : word) : bool :=
  match w with
  | Flag _ _ => true
  | Operand s => NONOPTION_P s
  end.

Definition written_flag (sp : spelling) (f : flag) : list string :=
  let long := ("--" ++ long_name f)%string in
  match argument f with
  | None =>
      match sp, short_name f with
      | Short, Some c => [String "-" (String c "")]
      | _, _ => [long]
      end
  | Some v =>
      match sp, short_name f with
      | Short, Some c => [String "-" (String c ""); v]
      | Equals, _ => [(long ++ "=" ++ v)%string]
      | _, _ => [long; v]
      end
  end.

Definition written (w : word) : list string :=
  match w with
  | Flag sp f => written_flag sp f
  | Operand s => [s]
  end.

Definition command_line (ws : list word) : list string :=
  flat_map written ws.

Fixpoint flags (ws : list word) : list flag :=
  match ws with
  | [] => []
  | Flag _ f :: ws' => f :: flags ws'
  | Operand _ :: ws' => flags ws'
  end.

(** The value [getopt_long] returns for a flag. *)
Definition code (f : flag) : Z :=
  match f with
  | F_play => chr "p" | F_play_pause => chr "t" | F_pause => chr "u"
  | F_stop => chr "s" | F_previous => chr "r" | F_next => chr "f"
  | F_volume _ => chr "v" | F_volume_up => VolumeUp
  | F_volume_down => VolumeDown | F_seek_to _ => SeekTo
  | F_append => chr "a" | F_load => chr "l"
  | F_play_track _ => chr "k" | F_show_osd => chr "o"
  end.

(** What a flag does to the options. *)
Definition effect (a : CommandlineOptions) (f : flag) : CommandlineOptions :=
  match f with
  | F_play => set_player_action Player_Play a
  | F_play_pause => set_player_action Player_PlayPause a
  | F_pause => set_player_action Player_Pause a
  | F_stop => set_player_action Player_Stop a
  | F_previous => set_player_action Player_Previous a
  | F_next => set_player_action Player_Next a
  | F_volume v => set_set_volume (toInt_or_sentinel (Some v)) a
  | F_volume_up => set_volume_modifier 4 a
  | F_volume_down => set_volume_modifier (-4) a
  | F_seek_to v => set_seek_to (toInt_or_sentinel (Some v)) a
  | F_append => set_url_list_action UrlList_Append a
  | F_load => set_url_list_action UrlList_Load a
  | F_play_track v => set_play_track_at (toInt_or_sentinel (Some v)) a
  | F_show_osd => set_show_osd true a
  end.

(** The flags of a command line applied from left to right. *)
Definition effects (ws : list word) (a : CommandlineOptions)
  : CommandlineOptions :=
  fold_left effect (flags ws) a.

(** The scanner is between two elements, with the words [rest] to go. *)
Record at_words (d : getopt_data) (rest : list string) : Prop := {
  aw_first : (first_nonopt d <= last_nonopt d)%nat;
  aw_last : (last_nonopt d <= optind d)%nat;
  aw_optind : (optind d <= argc d)%nat;
  aw_nextchar : nextchar d = "";
  aw_rest : skipn (optind d) (argv d) = rest
}.

(** The next word, if there is one, is not an operand. *)
Definition stops_skip (rest : list string) : Prop :=
  match rest with
  | w :: _ => NONOPTION_P w = false
  | [] => True
  end.

(** A word that asks for the help text. *)
Definition is_help (w : string) : bool :=
  (w =? "-h")%string || (w =? "--help")%string.

(** A word that looks like a flag and is none: two dashes and a name that
    no option name starts with, or one dash and a character that is not an
    option letter. *)
Definition unrecognized (w : string) : bool :=
  match w with
  | String dash (String c r) =>
      Ascii.eqb dash "-" &&
      if Ascii.eqb c "-"
      then negb (r =? "")%string &&
           forallb (fun p => negb (prefix (fst (nameend r)) (name p))) kOptions
      else negb (existsb (Ascii.eqb c) (list_ascii_of_string "hptusrfvalko"))
  | _ => false
  end.

(** A flag that takes an argument, when it is the last word. *)
Definition lacks_argument (w : string) : bool :=
  existsb (String.eqb w) ["-v"; "-k"; "--volume"; "--seek-to"; "--play-track"].

(** ** Fields and the flags that set them *)

Inductive field :=
| player_action | url_list_action | set_volume | volume_modifier
| seek_to | play_track_at | show_osd.

Definition field_eqb (x y : field) : bool :=
  match x, y with
  | player_action, player_action | url_list_action, url_list_action
  | set_volume, set_volume | volume_modifier, volume_modifier
  | seek_to, seek_to | play_track_at, play_track_at
  | show_osd, show_osd => true
  | _, _ => false
  end.

Definition field_of (f : flag) : field :=
  match f with
  | F_play | F_play_pause | F_pause | F_stop | F_previous | F_next =>
      player_action
  | F_volume _ => set_volume
  | F_volume_up | F_volume_down => volume_modifier
  | F_seek_to _ => seek_to
  | F_append | F_load => url_list_action
  | F_play_track _ => play_track_at
  | F_show_osd => show_osd
  end.

(** The content of a field; the OSD flag as 0 or 1. *)
Definition field_value (fd : field) (a : CommandlineOptions) : Z :=
  match fd with
  | player_action => player_action_ a
  | url_list_action => url_list_action_ a
  | set_volume => set_volume_ a
  | volume_modifier => volume_modifier_ a
  | seek_to => seek_to_ a
  | play_track_at => play_track_at_ a
  | show_osd => if show_osd_ a then 1 else 0
  end.

(** The last flag of a command line that sets the field, if any. *)
Definition last_setting (fd : field) (ws : list word) : option flag :=
  find (fun f => field_eqb (field_of f) fd) (rev (flags ws)).

(** The content of the field after the flags [ws], when the last flag that
    sets it decides alone: what that flag assigns, or what the field held
    in [a] when no flag sets it. *)
Definition last_wins (fd : field) (ws : list word)
    (a : CommandlineOptions) : Z :=
  match last_setting fd ws with
  | Some f => field_value fd (effect a f)
  | None => field_value fd a
  end.

(** What the caller of [Parse] has in hand afterwards: the value returned
    and the fields of the object.  Standard output is not the caller's. *)
Definition caller_view
    (r : option (bool * CommandlineOptions * list HelpText)) :=
  match r with
  | Some (b, a, _) =>
      Some (b, (player_action_ a, url_list_action_ a, set_volume_ a,
                volume_modifier_ a, seek_to_ a, play_track_at_ a,
                show_osd_ a, urls_ a))
  | None => None
  end.

(** Two objects agree on every field but [argv_] and [urls_]. *)
Definition same_fields (a b : CommandlineOptions) : Prop :=
  forall fd, field_value fd a = field_value fd b.

(** Some field that [is_empty] looks at is off its default. *)
Definition deviates (a : CommandlineOptions) : Prop :=
  player_action_ a <> Player_None \/
  set_volume_ a <> -1 \/
  volume_modifier_ a <> 0 \/
  seek_to_ a <> -1 \/
  play_track_at_ a <> -1 \/
  show_osd_ a <> false \/
  urls_ a <> [].

(** What an argument becomes when it is appended to [urls_]. *)
Definition url_of_argument (absoluteFilePath : string -> string)
    (value : string) : QUrl :=
  if contains "://" value then QUrl_of_QString value
  else QUrl_fromLocalFile (absoluteFilePath value).

(** ** What [Parse] keeps *)

(** The enumerations hold one of their values, the volume modifier is one
    of the three values the code assigns, and the three numbers are
    32-bit. *)
Record in_range (a : CommandlineOptions) : Prop := {
  range_player_action : Player_None <= player_action_ a <= Player_Next;
  range_url_list_action : UrlList_Append <= url_list_action_ a <= UrlList_Load;
  range_volume_modifier :
    volume_modifier_ a = 0 \/ volume_modifier_ a = 4 \/ volume_modifier_ a = -4;
  range_set_volume : is_qint32 (set_volume_ a);
  range_seek_to : is_qint32 (seek_to_ a);
  range_play_track_at : is_qint32 (play_track_at_ a)
}.

(** The fields no flag puts back to their default once a flag has set
    them. *)
Definition sticky (fd : field) : bool :=
  match fd with
  | player_action | volume_modifier | show_osd => true
  | _ => false
  end.

(** The bytes of one URL on the wire. *)
Definition QUrl_size (u : QUrl) : nat := (4 + String.length (toEncoded u))%nat.

(** ** Shortened long names and clusters of letters *)

(** [n] shortens the long name of [f]: it is a beginning of that name, not
    empty, and a beginning of no other option name. *)
Definition abbreviates (n : string) (f : flag) : bool :=
  negb (n =? "")%string && prefix n (long_name f) &&
  forallb (fun p => (name p =? long_name f)%string || negb (prefix n (name p)))
    kOptions.

(** The flag written with its name shortened to [n], its argument as the
    next word. *)
Definition abbreviated (n : string) (f : flag) : list string :=
  ("--" ++ n)%string ::
  match argument f with
  | Some v => [v]
  | None => []
  end.

(** [n] is the beginning of two option names or more, and the whole of
    none. *)
Definition ambiguous (n : string) : bool :=
  negb (n =? "")%string &&
  negb (existsb (fun p => (name p =? n)%string) kOptions) &&
  (2 <=? List.length (filter (fun p => prefix n (name p)) kOptions))%nat.

(** The beginnings of a string, the empty one first. *)
Fixpoint prefixes (s : string) : list string :=
  EmptyString ::
  match s with
  | EmptyString => []
  | String c s' => map (String c) (prefixes s')
  end.

(** The table entry [process_long_option] settles on for a name. *)
Definition lookup (nm : string) : option (nat * struct_option) * bool :=
  match find_exact kOptions nm 0 with
  | Some f => (Some f, false)
  | None => find_abbrev kOptions nm 0 None false
  end.

(** A flag that has a letter and takes no argument can stand in a
    cluster: ["-ps"] for ["-p"; "-s"]. *)
Definition clusterable (f : flag) : bool :=
  match short_name f, argument f with
  | Some _, None => true
  | _, _ => false
  end.

Fixpoint letters (fs : list flag) : string :=
  match fs with
  | [] => EmptyString
  | f :: fs' =>
      match short_name f with
      | Some c => String c (letters fs')
      | None => letters fs'
      end
  end.

Definition cluster (fs : list flag) : string := String "-" (letters fs).

(** The scanner is inside a cluster: [nc] is left of the element at
    [optind], and [rest] follows that element. *)
Record in_cluster (d : getopt_data) (nc : string) (rest : list string)
  : Prop := {
  ic_nextchar : nextchar d = nc;
  ic_first : (first_nonopt d <= last_nonopt d)%nat;
  ic_last : (last_nonopt d <= optind d)%nat;
  ic_optind : (optind d < argc d)%nat;
  ic_rest : skipn (S (optind d)) (argv d) = rest
}.

(** * Properties *)

(** ** The emptiness test *)

Lemma isEmpty_true {A} (l : list A) : isEmpty l = true <-> l = [].
Proof. destruct l; simpl; split; congruence. Qed.

Lemma is_empty_true_iff (a : CommandlineOptions) :
  is_empty a = true <->
  player_action_ a = Player_None /\
  set_volume_ a = -1 /\
  volume_modifier_ a = 0 /\
  seek_to_ a = -1 /\
  play_track_at_ a = -1 /\
  show_osd_ a = false /\
  urls_ a = [].
Proof.
  unfold is_empty.
  rewrite !andb_true_iff, !Z.eqb_eq, eqb_true_iff, isEmpty_true.
  tauto.
Qed.

(** C2: [is_empty] is true exactly when the player action is None, the
    volume, seek position and track are the sentinel -1, the volume modifier
    is 0, the OSD flag is off and there is no URL; the URL list action plays
    no part in it. *)
Theorem is_empty_spec (a : CommandlineOptions) :
  (is_empty a = true <->
     player_action_ a = Player_None /\
     set_volume_ a = -1 /\
     volume_modifier_ a = 0 /\
     seek_to_ a = -1 /\
     play_track_at_ a = -1 /\
     show_osd_ a = false /\
     urls_ a = []) /\
  (forall x : UrlListAction, is_empty (set_url_list_action x a) = is_empty a).
Proof.
  split; [apply is_empty_true_iff | reflexivity].
Qed.

(** ** The wire format *)

Lemma Z_of_byte_of_Z (z : Z) : Z_of_byte (byte_of_Z z) = Z.land z 255.
Proof.
  unfold Z_of_byte, byte_of_Z.
  assert (H : 0 <= Z.land z 255 < 256).
  { change 255 with (Z.ones 8). rewrite Z.land_ones by lia.
    apply Z.mod_pos_bound. reflexivity. }
  destruct (Byte.of_N (Z.to_N (Z.land z 255))) as [b |] eqn:E.
  - apply Byte.to_of_N in E. rewrite E. lia.
  - apply Byte.of_N_None_iff in E. lia.
Qed.

Lemma byte_lane (i k n : Z) :
  0 <= k -> 0 <= n ->
  Z.testbit (Z.shiftl (Z.land (Z.shiftr i k) (Z.ones 8)) k) n
  = Z.testbit i n && ((k <=? n) && (n <? k + 8)).
Proof.
  intros Hk Hn. rewrite Z.shiftl_spec by assumption.
  destruct (Z.leb_spec k n).
  - rewrite Z.land_spec, Z.shiftr_spec, Z.testbit_ones_nonneg by lia.
    replace (n - k + k) with n by lia.
    destruct (Z.ltb_spec (n - k) 8), (Z.ltb_spec n (k + 8)); try lia;
      reflexivity.
  - rewrite Z.testbit_neg_r by lia. now rewrite andb_false_r.
Qed.

Lemma big_endian_bits (i : Z) :
  Z.lor (Z.shiftl (Z.land (Z.shiftr i 24) 255) 24)
    (Z.lor (Z.shiftl (Z.land (Z.shiftr i 16) 255) 16)
       (Z.lor (Z.shiftl (Z.land (Z.shiftr i 8) 255) 8) (Z.land i 255)))
  = i mod 2 ^ 32.
Proof.
  rewrite <- Z.land_ones by lia.
  change 255 with (Z.ones 8).
  apply Z.bits_inj'. intros n Hn.
  rewrite !Z.lor_spec, !byte_lane, !Z.land_spec by lia.
  rewrite !Z.testbit_ones_nonneg by lia.
  destruct (Z.testbit i n); [| reflexivity]. cbn [andb].
  destruct (Z.leb_spec 24 n), (Z.leb_spec 16 n), (Z.leb_spec 8 n),
    (Z.ltb_spec n (24 + 8)), (Z.ltb_spec n (16 + 8)), (Z.ltb_spec n (8 + 8)),
    (Z.ltb_spec n 8), (Z.ltb_spec n 32); try lia; reflexivity.
Qed.

Lemma read_write_quint32 (i : Z) (s : list byte) :
  read_quint32 (write_quint32 i ++ s) = (i mod 2 ^ 32, s).
Proof.
  unfold write_quint32, write_qint32, read_quint32. cbn [app].
  rewrite !Z_of_byte_of_Z, big_endian_bits. reflexivity.
Qed.

Lemma qint32_of_quint32_mod (i : Z) :
  is_qint32 i -> qint32_of_quint32 (i mod 2 ^ 32) = i.
Proof.
  unfold is_qint32, qint32_of_quint32. intros H.
  destruct (Z_lt_le_dec i 0).
  - rewrite <- (Z.mod_add i 1) by lia.
    rewrite Z.mod_small by lia.
    destruct (Z.ltb_spec (i + 1 * 2 ^ 32) (2 ^ 31)); lia.
  - rewrite Z.mod_small by lia.
    destruct (Z.ltb_spec i (2 ^ 31)); lia.
Qed.

Lemma bind_read_qint32 {B} (k : Z -> Reader B) (i : Z) (s : list byte) :
  is_qint32 i -> bind read_qint32 k (write_qint32 i ++ s) = k i s.
Proof.
  intros H. unfold read_qint32, bind, ret.
  fold (write_quint32 i). rewrite read_write_quint32.
  rewrite qint32_of_quint32_mod by assumption. reflexivity.
Qed.

Lemma bind_read_bool {B} (k : bool -> Reader B) (b : bool) (s : list byte) :
  bind read_bool k (write_bool b ++ s) = k b s.
Proof. destruct b; reflexivity. Qed.

Lemma length_list_byte_of_string (s : string) :
  List.length (list_byte_of_string s) = String.length s.
Proof.
  unfold list_byte_of_string. rewrite length_map.
  induction s; simpl; congruence.
Qed.

Lemma read_write_QByteArray (ba : string) (s : list byte) :
  fits (String.length ba) ->
  read_QByteArray (write_QByteArray ba ++ s) = (ba, s).
Proof.
  unfold fits. intros H. unfold read_QByteArray, write_QByteArray, bind.
  destruct ba as [| c ba'].
  - rewrite read_write_quint32. reflexivity.
  - set (b := String c ba') in *.
    rewrite <- app_assoc, read_write_quint32.
    rewrite Z.mod_small by lia.
    destruct (Z.eqb_spec (Z.of_nat (String.length b)) 4294967295); [lia |].
    rewrite Nat2Z.id, <- length_list_byte_of_string.
    rewrite length_app.
    destruct (Nat.leb_spec (List.length (list_byte_of_string b))
                (List.length (list_byte_of_string b) + List.length s)); [| lia].
    rewrite firstn_app, Nat.sub_diag, firstn_all, firstn_O, app_nil_r.
    rewrite skipn_app, Nat.sub_diag, skipn_all. simpl.
    rewrite string_of_list_byte_of_string. reflexivity.
Qed.

Lemma read_write_QUrl (u : QUrl) (s : list byte) :
  url_fits u -> read_QUrl (write_QUrl u ++ s) = (u, s).
Proof.
  intros H. unfold read_QUrl, write_QUrl, bind.
  rewrite read_write_QByteArray by assumption.
  destruct u; reflexivity.
Qed.

Lemma write_QUrl_not_nil (u : QUrl) : write_QUrl u <> [].
Proof.
  unfold write_QUrl, write_QByteArray.
  destruct (toEncoded u); discriminate.
Qed.

Lemma read_QList_loop_write (l : list QUrl) :
  Forall url_fits l ->
  forall (acc : list QUrl) (s : list byte),
    read_QList_loop (List.length l) acc (List.concat (map write_QUrl l) ++ s)
    = (acc ++ l, s).
Proof.
  induction 1 as [| u l Hu Hl IH]; intros acc s.
  - simpl. rewrite app_nil_r. reflexivity.
  - cbn [List.length map List.concat read_QList_loop].
    unfold bind at 1. rewrite <- app_assoc, read_write_QUrl by assumption.
    unfold bind at 1, atEnd at 1.
    destruct (List.concat (map write_QUrl l) ++ s) eqn:E; cbn [isEmpty].
    + apply app_eq_nil in E. destruct E as [E ->].
      destruct l as [| u' l'].
      * reflexivity.
      * simpl in E. apply app_eq_nil in E. destruct E as [E _].
        now apply write_QUrl_not_nil in E.
    + rewrite <- E, IH, <- app_assoc. reflexivity.
Qed.

Lemma bind_read_QList {B} (k : list QUrl -> Reader B) (l : list QUrl)
    (s : list byte) :
  fits (List.length l) -> Forall url_fits l ->
  bind read_QList k (write_QList l ++ s) = k l s.
Proof.
  unfold fits. intros Hn Hl. unfold read_QList, write_QList, bind.
  rewrite <- app_assoc, read_write_quint32.
  rewrite Z.mod_small by lia.
  rewrite Nat2Z.id, read_QList_loop_write by assumption.
  reflexivity.
Qed.

Lemma Load_Serialize (o b : CommandlineOptions) :
  representable o -> Load (Serialize o) b = set_argv_ (argv_ b) o.
Proof.
  intros [H1 H2 H3 H4 H5 H6 H7 H8].
  unfold Load, Serialize, stream_in, stream_out.
  rewrite !bind_read_qint32 by assumption.
  rewrite bind_read_bool.
  rewrite <- (app_nil_r (write_QList (urls_ o))).
  rewrite bind_read_QList by assumption.
  reflexivity.
Qed.

(** C1: loading what [Serialize] produced gives back every field of the
    options: the player action, the URL list action, the volume, the volume
    modifier, the seek position, the track, the OSD flag and the URLs, for
    every value the wire format can carry (sentinels -1, no URL and several
    URLs of either form included). *)
Theorem Load_Serialize_fields (o b : CommandlineOptions) :
  representable o ->
  let o' := Load (Serialize o) b in
  player_action_ o' = player_action_ o /\
  url_list_action_ o' = url_list_action_ o /\
  set_volume_ o' = set_volume_ o /\
  volume_modifier_ o' = volume_modifier_ o /\
  seek_to_ o' = seek_to_ o /\
  play_track_at_ o' = play_track_at_ o /\
  show_osd_ o' = show_osd_ o /\
  urls_ o' = urls_ o.
Proof.
  intros H o'. subst o'. rewrite Load_Serialize by assumption.
  repeat split.
Qed.

Lemma Load_Serialize_fields_witness :
  let o := mkOptions ["clementine"] UrlList_Load Player_Play (-1) 4 (-1) (-1)
             true
             [QUrl_fromLocalFile "/home/user/song.mp3";
              QUrl_of_QString "http://example.com/x"] in
  representable o /\
  urls_ (Load (Serialize o) (CommandlineOptions_new [])) = urls_ o /\
  set_volume_ (Load (Serialize o) (CommandlineOptions_new [])) = -1.
Proof.
  intros o.
  assert (R : representable o).
  { constructor;
      try (split; [apply Z.leb_le | apply Z.ltb_lt]; reflexivity);
      try (apply Z.ltb_lt; reflexivity).
    repeat constructor; apply Z.ltb_lt; reflexivity. }
  split; [exact R |].
  destruct (Load_Serialize_fields o (CommandlineOptions_new []) R)
    as (_ & _ & Hv & _ & _ & _ & _ & Hu).
  split; [exact Hu | exact Hv].
Defined.

(** ** Termination of the scanner loop *)

Local Open Scope nat_scope.

Lemma weight_skipn (k : nat) (l : list string) :
  weight (skipn k l) <= weight l.
Proof.
  revert k. induction l as [| s l IH]; intros [| k]; simpl; try lia.
  specialize (IH k). lia.
Qed.

Lemma weight_skipn_S (k : nat) (l : list string) :
  k < List.length l ->
  weight (skipn k l) = S (String.length (nth k l "")) + weight (skipn (S k) l).
Proof.
  revert k. induction l as [| s l IH]; intros [| k] H;
    try (simpl in H; lia).
  - reflexivity.
  - apply (IH k). simpl in H. lia.
Qed.

Lemma weight_skipn_le (j k : nat) (l : list string) :
  j <= k -> weight (skipn k l) <= weight (skipn j l).
Proof.
  intros H. replace k with ((k - j) + j) by lia.
  rewrite <- skipn_skipn. apply weight_skipn.
Qed.

Lemma skip_nonoptions_bounds (rest : list string) (i : nat) :
  i <= skip_nonoptions rest i <= i + List.length rest.
Proof.
  revert i. induction rest as [| s rest IH]; intros i; simpl; [lia |].
  destruct (NONOPTION_P s); [| lia].
  specialize (IH (S i)). lia.
Qed.

Lemma exchange_argv (d : getopt_data) :
  first_nonopt d <= last_nonopt d -> last_nonopt d <= optind d ->
  optind d <= argc d ->
  List.length (argv (exchange d)) = argc d /\
  skipn (optind d) (argv (exchange d)) = skipn (optind d) (argv d).
Proof.
  unfold argc, exchange, segment. intros H1 H2 H3. simpl.
  set (v := argv d) in *.
  assert (L1 : List.length (firstn (first_nonopt d) v) = first_nonopt d)
    by (rewrite length_firstn; lia).
  assert (L2 : List.length (firstn (optind d - last_nonopt d)
                              (skipn (last_nonopt d) v))
               = optind d - last_nonopt d)
    by (rewrite length_firstn, length_skipn; lia).
  assert (L3 : List.length (firstn (last_nonopt d - first_nonopt d)
                              (skipn (first_nonopt d) v))
               = last_nonopt d - first_nonopt d)
    by (rewrite length_firstn, length_skipn; lia).
  split.
  - rewrite !length_app, L1, L2, L3, length_skipn. lia.
  - rewrite !app_assoc.
    rewrite skipn_app, skipn_all2 by (rewrite !length_app; lia).
    rewrite !length_app, L1, L2, L3.
    replace (optind d - _) with 0 by lia. reflexivity.
Qed.

Lemma exchange_fields (d : getopt_data) :
  optind (exchange d) = optind d /\
  nextchar (exchange d) = nextchar d /\
  first_nonopt (exchange d) = first_nonopt d + (optind d - last_nonopt d) /\
  last_nonopt (exchange d) = optind d.
Proof. repeat split. Qed.

Lemma skip_step_scanning (d0 d : getopt_data) :
  optind d = optind d0 ->
  List.length (argv d) = argc d0 ->
  skipn (optind d0) (argv d) = skipn (optind d0) (argv d0) ->
  first_nonopt d <= optind d0 ->
  nextchar d = "" ->
  optind d0 <= argc d0 ->
  let d1 := skip_step d in
  first_nonopt d1 <= last_nonopt d1 /\
  last_nonopt d1 <= optind d1 /\
  optind d1 <= argc d1 /\
  nextchar d1 = "" /\
  weight (skipn (optind d1) (argv d1)) <= weight (skipn (optind d0) (argv d0)).
Proof.
  intros E1 E2 E3 H1 H2 H3. unfold skip_step, argc in *.
  cbn -[skip_nonoptions]. rewrite E1, E3.
  pose proof (skip_nonoptions_bounds (skipn (optind d0) (argv d0)) (optind d0)) as B.
  rewrite length_skipn in B.
  set (j := skip_nonoptions _ _) in *.
  repeat split; try lia; try assumption.
  replace j with ((j - optind d0) + optind d0) by lia.
  rewrite <- skipn_skipn, E3. apply weight_skipn.
Qed.

(** After [permute] the state is still well formed, nothing that was left
    to scan has been added to, and no cluster is open. *)
Lemma permute_scanning (d : getopt_data) :
  scanning d -> nextchar d = "" ->
  let d1 := permute d in
  first_nonopt d1 <= last_nonopt d1 /\
  last_nonopt d1 <= optind d1 /\
  optind d1 <= argc d1 /\
  nextchar d1 = "" /\
  weight (skipn (optind d1) (argv d1)) <= weight (skipn (optind d) (argv d)).
Proof.
  intros [H1 H2 H3 _] Hn. unfold permute.
  destruct (Nat.ltb_spec (optind d) (last_nonopt d)); [lia |].
  destruct (Nat.ltb_spec (optind d) (first_nonopt d)); [lia |].
  destruct (negb (first_nonopt d =? last_nonopt d)
            && negb (last_nonopt d =? optind d)).
  - destruct (exchange_argv d H1 H2 H3) as [E1 E2].
    destruct (exchange_fields d) as (F1 & F2 & F3 & F4).
    apply (skip_step_scanning d (exchange d)); try assumption;
      try congruence; lia.
  - destruct (negb (last_nonopt d =? optind d)).
    + apply (skip_step_scanning d (set_first_nonopt (optind d) d));
        try reflexivity; try assumption; cbn; lia.
    + apply (skip_step_scanning d d); try reflexivity; try assumption; lia.
Qed.

Ltac split_match :=
  repeat match goal with
    | H : context [match ?x with _ => _ end] |- _ => destruct x eqn:?
    | H : context [if ?x then _ else _] |- _ => destruct x eqn:?
    end.

Lemma getopt_short_scanning (optstring : string) (c : ascii) (rest : string)
    (d d' : getopt_data) (r : Z) :
  first_nonopt d <= last_nonopt d -> last_nonopt d <= optind d ->
  optind d < argc d ->
  getopt_short optstring c rest d = (r, d') ->
  scanning d' /\
  measure d' < S (String.length rest) + weight (skipn (S (optind d)) (argv d)).
Proof.
  intros H1 H2 H3 E. unfold getopt_short in E.
  pose proof (weight_skipn_le (S (optind d)) (S (S (optind d))) (argv d)) as W.
  destruct rest as [| c' rest']; cbn [set_nextchar set_optind optind nextchar] in E;
    split_match; inversion E; subst; clear E;
    repeat match goal with
      | H : (_ =? _) = false |- _ => apply Nat.eqb_neq in H
      end;
    unfold argc in *; cbn in *;
    (split; [constructor; cbn; try lia; try congruence | unfold measure; cbn; lia]).
Qed.

Lemma process_long_option_scanning (longopts : list struct_option)
    (d d' : getopt_data) (li li' : nat) (r : Z) :
  first_nonopt d <= last_nonopt d -> last_nonopt d <= optind d ->
  optind d < argc d ->
  process_long_option longopts d li = (r, d', li') ->
  scanning d' /\
  measure d' <= weight (skipn (S (optind d)) (argv d)).
Proof.
  intros H1 H2 H3 E. unfold process_long_option in E.
  pose proof (weight_skipn_le (S (optind d)) (S (S (optind d))) (argv d)) as W.
  destruct (nameend (nextchar d)) as [nm value].
  destruct (match find_exact longopts nm 0 with
            | Some f => (Some f, false)
            | None => find_abbrev longopts nm 0 None false
            end) as [pfound ambig].
  cbn [set_nextchar set_optind optind nextchar argc argv] in E.
  split_match; inversion E; subst; clear E;
    repeat match goal with
      | H : (_ <? _) = true |- _ => apply Nat.ltb_lt in H
      end;
    unfold argc in *; cbn in *;
    (split; [constructor; cbn; try lia; try congruence | unfold measure; cbn; lia]).
Qed.

Lemma NONOPTION_P_false (s : string) :
  NONOPTION_P s = false -> exists c r, s = String "-" (String c r).
Proof.
  destruct s as [| a [| b r]]; try discriminate;
    destruct a as [[] [] [] [] [] [] [] []]; try discriminate; eauto.
Qed.

Lemma end_of_options_cases (d : getopt_data) :
  end_of_options d = d \/
  optind (end_of_options d) = argc (end_of_options d).
Proof.
  unfold end_of_options.
  destruct (negb (optind d =? argc d) && (arg_at d (optind d) =? "--")%string);
    [right | left]; reflexivity.
Qed.

(** Every call that does not end the scan leaves less to scan. *)
Lemma getopt_long_progress (optstring : string)
    (longopts : list struct_option) (d d' : getopt_data) (li li' : nat)
    (c : Z) :
  scanning d ->
  getopt_long optstring longopts d li = (c, d', li') ->
  c <> (-1)%Z ->
  scanning d' /\ measure d' < measure d.
Proof.
  intros Hs E Hc. unfold getopt_long in E.
  destruct (argc d <? 1); [inversion E; congruence |].
  cbn [nextchar set_optarg] in E.
  destruct (nextchar d) as [| c0 rest] eqn:Hn.
  - assert (S0 : scanning (set_optarg None d)) by (destruct Hs; constructor; assumption).
    destruct (permute_scanning _ S0 Hn) as (P1 & P2 & P3 & P4 & P5).
    change (argv (set_optarg None d)) with (argv d) in P5.
    change (optind (set_optarg None d)) with (optind d) in P5.
    destruct (end_of_options_cases (permute (set_optarg None d))) as [Q | Q].
    2:{ apply Nat.eqb_eq in Q. rewrite Q in E. inversion E; congruence. }
    rewrite Q in E. clear Q.
    remember (permute (set_optarg None d)) as d1 eqn:Hd1. clear Hd1.
    destruct (Nat.eqb_spec (optind d1) (argc d1)) as [| Hlt];
      [inversion E; congruence |].
    assert (Hlt' : optind d1 < argc d1) by lia.
    pose proof (weight_skipn_S _ _ Hlt') as W. fold (arg_at d1 (optind d1)) in W.
    assert (M : measure d = weight (skipn (optind d) (argv d)))
      by (unfold measure; now rewrite Hn).
    destruct (NONOPTION_P (arg_at d1 (optind d1))) eqn:N.
    + inversion E; subst; clear E. unfold argc in *. split.
      * constructor; cbn; try lia. congruence.
      * rewrite M. unfold measure.
        cbn [nextchar set_optind set_optarg optind argv]. rewrite P4. lia.
    + apply NONOPTION_P_false in N. destruct N as (c1 & r & N).
      rewrite N in E, W. cbn [String.length] in W.
      assert (R : c1 = "-"%char /\
                  process_long_option longopts (set_nextchar r d1) li = (c, d', li')
                  \/ exists r0, getopt_short optstring c1 r d1 = (r0, d')).
      { destruct c1 as [[] [] [] [] [] [] [] []];
          try (right; destruct (getopt_short _ _ _ _) as [r0 d0];
               inversion E; subst; eauto; fail).
        left. split; [reflexivity | exact E]. }
      destruct R as [[_ R] | [r0 R]].
      * apply process_long_option_scanning in R; cbn; try assumption.
        cbn [set_nextchar optind argv] in R. rewrite M. split; [apply R | lia].
      * apply getopt_short_scanning in R; try assumption.
        rewrite M. split; [apply R | lia].
  - assert (Hlt : optind d < argc d) by (apply Hs; congruence).
    destruct (getopt_short optstring c0 rest (set_optarg None d)) as [r0 d0] eqn:G.
    inversion E; subst; clear E.
    apply getopt_short_scanning in G; cbn; try assumption; try apply Hs.
    cbn [set_optarg optind argv] in G. split; [apply G |].
    unfold measure at 2. rewrite Hn. cbn [String.length]. lia.
Qed.

Lemma Parse_loop_total (tr : string -> string) (fuel : nat) :
  forall (d : getopt_data) (option_index : nat) (a : CommandlineOptions),
    scanning d -> measure d < fuel ->
    exists r, Parse_loop tr fuel d option_index a = Some r.
Proof.
  induction fuel as [| fuel IH]; intros d li a Hs Hm; [lia |].
  cbn [Parse_loop].
  destruct (getopt_long kOptstring kOptions d li) as [[c d'] li'] eqn:E.
  destruct (Z.eqb_spec c (-1)) as [| Hc]; [eauto |].
  destruct (getopt_long_progress _ _ _ _ _ _ _ Hs E Hc) as [Hs' Hm'].
  destruct (Parse_switch tr c (optarg d') a); [| eauto].
  apply IH; [assumption | lia].
Qed.

Lemma Parse_loop_mono (tr : string -> string) (n : nat) :
  forall (d : getopt_data) (option_index : nat) (a : CommandlineOptions)
         (r : loop_exit) (m : nat),
    Parse_loop tr n d option_index a = Some r -> n <= m ->
    Parse_loop tr m d option_index a = Some r.
Proof.
  induction n as [| n IH]; intros d li a r m E Hm; [discriminate |].
  destruct m as [| m]; [lia |].
  cbn [Parse_loop] in *.
  destruct (getopt_long kOptstring kOptions d li) as [[c d'] li'].
  destruct (c =? -1)%Z; [assumption |].
  destruct (Parse_switch tr c (optarg d') a); [| assumption].
  apply IH; [assumption | lia].
Qed.

Lemma Parse_loop_terminates (tr : string -> string) (a : CommandlineOptions) :
  exists r,
    Parse_loop tr (Parse_fuel (argv_ a)) (getopt_initialize (argv_ a)) 0 a
    = Some r.
Proof.
  destruct (argv_ a) as [| prog args] eqn:V.
  - cbn. eauto.
  - apply Parse_loop_total.
    + constructor; cbn; try lia. congruence.
    + unfold measure, Parse_fuel. cbn. lia.
Qed.

(** X1: [Parse] returns on every argument vector: every call of
    [getopt_long] that does not end the scan leaves less of the vector to
    scan, so the [forever] loop is left after at most one call per character
    and element. *)
Theorem Parse_terminates (tr absoluteFilePath : string -> string)
    (a : CommandlineOptions) :
  exists r, Parse tr absoluteFilePath a = Some r.
Proof.
  unfold Parse.
  destruct (Parse_loop_terminates tr a) as [[d li a' | d a' out] ->]; eauto.
Qed.

(** ** The scanner on flags and operands as they are written *)

Lemma skipn_cons {A} (i : nat) (l : list A) (x : A) (rest : list A) (dflt : A) :
  skipn i l = x :: rest ->
  nth i l dflt = x /\ i < List.length l /\ skipn (S i) l = rest.
Proof.
  revert i. induction l as [| y l IH]; intros [| i] H; try discriminate.
  - inversion H. repeat split. simpl. lia.
  - destruct (IH i H) as (H1 & H2 & H3). repeat split; try assumption.
    simpl. lia.
Qed.

Ltac simpl_data :=
  unfold argc, arg_at;
  cbn [argv optind optarg nextchar first_nonopt last_nonopt
       set_argv set_optind set_optarg set_nextchar set_first_nonopt
       set_last_nonopt argc arg_at negb andb orb].

Ltac simpl_data_in H :=
  unfold argc, arg_at in H;
  cbn [argv optind optarg nextchar first_nonopt last_nonopt
       set_argv set_optind set_optarg set_nextchar set_first_nonopt
       set_last_nonopt argc arg_at negb andb orb] in H.

Lemma skip_nonoptions_operands (ops rest : list string) (i : nat) :
  forallb NONOPTION_P ops = true -> stops_skip rest ->
  skip_nonoptions (ops ++ rest) i = i + List.length ops.
Proof.
  intros Ho Hr. revert i.
  induction ops as [| s ops IH]; intros i.
  - cbn [app List.length]. rewrite Nat.add_0_r.
    destruct rest as [| w rest]; [reflexivity |].
    cbn [skip_nonoptions]. cbn in Hr. rewrite Hr. reflexivity.
  - cbn [forallb] in Ho. apply andb_true_iff in Ho. destruct Ho as [Hs Ho].
    cbn [app skip_nonoptions List.length]. rewrite Hs, IH by assumption. lia.
Qed.

Lemma skip_step_words (d0 d : getopt_data) (ops rest : list string) :
  optind d = optind d0 ->
  List.length (argv d) = argc d0 ->
  skipn (optind d0) (argv d) = ops ++ rest ->
  forallb NONOPTION_P ops = true -> stops_skip rest ->
  first_nonopt d <= optind d0 ->
  nextchar d = ""%string ->
  optind d0 <= argc d0 ->
  at_words (skip_step d) rest /\ optarg (skip_step d) = optarg d.
Proof.
  intros E1 E2 E3 Ho Hr H1 H2 H3. unfold skip_step, argc in *.
  cbn -[skip_nonoptions]. rewrite E1, E3.
  rewrite skip_nonoptions_operands by assumption.
  pose proof (length_skipn (optind d0) (argv d)) as L.
  rewrite E3, length_app in L.
  split; [| reflexivity].
  constructor; simpl_data; try lia; try assumption.
  rewrite Nat.add_comm, <- skipn_skipn, E3.
  rewrite skipn_app, Nat.sub_diag, skipn_all. reflexivity.
Qed.

Lemma permute_words (d : getopt_data) (ops rest : list string) :
  at_words d (ops ++ rest) ->
  forallb NONOPTION_P ops = true -> stops_skip rest ->
  at_words (permute (set_optarg None d)) rest /\
  optarg (permute (set_optarg None d)) = None.
Proof.
  intros [H1 H2 H3 H4 H5] Ho Hr.
  set (d0 := set_optarg None d).
  assert (K1 : first_nonopt d0 <= last_nonopt d0) by exact H1.
  assert (K2 : last_nonopt d0 <= optind d0) by exact H2.
  assert (K3 : optind d0 <= argc d0) by exact H3.
  assert (K5 : skipn (optind d0) (argv d0) = ops ++ rest) by exact H5.
  assert (K4 : nextchar d0 = ""%string) by exact H4.
  assert (K6 : optarg d0 = None) by reflexivity.
  clearbody d0. rewrite <- K6. unfold permute.
  destruct (Nat.ltb_spec (optind d0) (last_nonopt d0)); [lia |].
  destruct (Nat.ltb_spec (optind d0) (first_nonopt d0)); [lia |].
  destruct (negb (first_nonopt d0 =? last_nonopt d0)
            && negb (last_nonopt d0 =? optind d0)).
  - destruct (exchange_argv d0 K1 K2 K3) as [E1 E2].
    destruct (exchange_fields d0) as (F1 & F2 & F3 & F4).
    apply (skip_step_words d0 (exchange d0) ops); try assumption;
      try congruence; lia.
  - destruct (negb (last_nonopt d0 =? optind d0)).
    + apply (skip_step_words d0 (set_first_nonopt (optind d0) d0) ops);
        try reflexivity; try assumption; cbn; lia.
    + apply (skip_step_words d0 d0 ops); try reflexivity; try assumption; lia.
Qed.

Lemma end_of_options_word (d : getopt_data) (w : string) (rest : list string) :
  at_words d (w :: rest) -> w <> "--"%string -> end_of_options d = d.
Proof.
  intros [_ _ _ _ H] Hw.
  destruct (skipn_cons _ _ _ _ ""%string H) as (A1 & _ & _).
  unfold end_of_options, arg_at. rewrite A1.
  destruct (String.eqb_spec w "--"); [contradiction |].
  rewrite andb_false_r. reflexivity.
Qed.

Lemma at_words_end (d : getopt_data) :
  at_words d [] -> optind d = argc d.
Proof.
  intros [_ _ H _ E]. unfold argc in *.
  pose proof (length_skipn (optind d) (argv d)) as L.
  rewrite E in L. simpl in L. lia.
Qed.

(** In front of operands and then a word that is none, [getopt_long]
    skips the operands and takes the word as a long option or as a cluster
    of short options. *)
Lemma getopt_long_at_word (d : getopt_data) (li : nat) (ops : list string)
    (w : string) (rest : list string) :
  at_words d (ops ++ w :: rest) ->
  forallb NONOPTION_P ops = true ->
  NONOPTION_P w = false -> w <> "--"%string ->
  exists d1,
    at_words d1 (w :: rest) /\ optarg d1 = None /\
    getopt_long kOptstring kOptions d li =
    match w with
    | String _ (String "-" nm) =>
        process_long_option kOptions (set_nextchar nm d1) li
    | String _ (String c r) =>
        let (x, d') := getopt_short kOptstring c r d1 in (x, d', li)
    | _ => (QUESTION, d1, li)
    end.
Proof.
  intros H Ho N Hw.
  destruct (permute_words d ops (w :: rest) H Ho N) as [P1 P2].
  exists (permute (set_optarg None d)). split; [assumption |].
  split; [assumption |].
  unfold getopt_long.
  rewrite (end_of_options_word _ _ _ P1 Hw).
  set (d1 := permute (set_optarg None d)) in *. clearbody d1.
  destruct H as [_ _ H3 H4 H5].
  assert (L : 1 <= argc d).
  { unfold argc in *. pose proof (length_skipn (optind d) (argv d)) as L.
    rewrite H5, length_app in L. simpl in L. lia. }
  destruct (Nat.ltb_spec (argc d) 1); [lia |].
  cbn [nextchar set_optarg]. rewrite H4.
  destruct P1 as [_ _ _ _ Q5].
  destruct (skipn_cons _ _ _ _ ""%string Q5) as (A1 & A2 & A3).
  unfold arg_at, argc.
  destruct (Nat.eqb_spec (optind d1) (List.length (argv d1))); [lia |].
  rewrite A1, N. reflexivity.
Qed.

Ltac scanner_compute :=
  cbv -[Nat.ltb Nat.eqb nth List.length skipn].

(** Bring the state in which the word is looked at into view. *)
Ltac look_at_word H Ho li :=
  match type of H with
  | at_words ?d (?ops ++ ?w0 :: ?rest') =>
      let d1 := fresh "d1" in
      let G := fresh "G" in
      destruct (getopt_long_at_word d li ops w0 rest' H Ho eq_refl
                  ltac:(discriminate))
        as (d1 & [K1 K2 K3 K4 K5] & O1 & G);
      rewrite G; clear G;
      destruct d1 as [v oi oa nc fn ln];
      simpl_data_in K1; simpl_data_in K2; simpl_data_in K3;
      simpl_data_in K4; simpl_data_in K5; simpl_data_in O1;
      subst oa nc
  end.

Ltac finish_scan :=
  split; [reflexivity
        | constructor; simpl_data; try lia; try assumption; reflexivity].

(** One flag, however it is spelled and whatever operands stand before
    it, is one call of [getopt_long]: the call returns its code with its
    argument in [optarg], and the scanner is left after it. *)
Lemma getopt_long_flag (sp : spelling) (f : flag) (d : getopt_data)
    (li : nat) (ops rest : list string) :
  at_words d (ops ++ written_flag sp f ++ rest) ->
  forallb NONOPTION_P ops = true ->
  exists d' li',
    getopt_long kOptstring kOptions d li = (code f, d', li') /\
    optarg d' = argument f /\
    at_words d' rest.
Proof.
  intros H Ho.
  destruct (argument f) as [arg |] eqn:Ha.
  - (* a flag with an argument *)
    assert (Hf : f = F_volume arg \/ f = F_seek_to arg \/ f = F_play_track arg)
      by (destruct f; inversion Ha; auto).
    destruct sp; destruct Hf as [-> | [-> | ->]];
      cbn [written_flag argument short_name long_name app String.append] in H;
      look_at_word H Ho li;
      destruct (skipn_cons _ _ _ _ ""%string K5) as (A1 & A2 & A3);
      try (destruct (skipn_cons _ _ _ _ ""%string A3) as (B1 & B2 & B3);
           assert (C1 : (S oi <? List.length v) = true)
             by (apply Nat.ltb_lt; assumption);
           assert (C2 : (S oi =? List.length v) = false)
             by (apply Nat.eqb_neq; lia);
           eexists _, _; split;
           [ scanner_compute; rewrite ?C1, ?C2, ?B1; reflexivity
           | finish_scan ]; fail);
      (eexists _, _; split; [ scanner_compute; reflexivity | finish_scan ]).
  - (* a flag without argument *)
    destruct sp, f; try discriminate Ha;
      cbn [written_flag argument short_name long_name app String.append] in H;
      look_at_word H Ho li;
      destruct (skipn_cons _ _ _ _ ""%string K5) as (A1 & A2 & A3);
      (eexists _, _; split; [ scanner_compute; reflexivity | finish_scan ]).
Qed.

Lemma code_not_end (f : flag) : (code f =? -1)%Z = false.
Proof. destruct f; reflexivity. Qed.

Lemma Parse_switch_code (tr : string -> string) (f : flag)
    (a : CommandlineOptions) :
  Parse_switch tr (code f) (argument f) a = Continue (effect a f).
Proof. destruct f; reflexivity. Qed.

(** Flags and operands, followed by anything: the loop applies the flags
    one by one, and stands after them with at most operands skipped and not
    yet moved. *)
Lemma Parse_loop_words (tr : string -> string) (ws : list word) :
  forallb well_formed ws = true ->
  forall (ops : list string) (d : getopt_data) (li : nat)
         (a : CommandlineOptions) (rest : list string),
    at_words d (ops ++ command_line ws ++ rest) ->
    forallb NONOPTION_P ops = true ->
    exists d' li' ops',
      forallb NONOPTION_P ops' = true /\
      at_words d' (ops' ++ rest) /\
      forall fuel,
        Parse_loop tr (List.length (flags ws) + fuel) d li a
        = Parse_loop tr fuel d' li' (effects ws a).
Proof.
  induction ws as [| w ws IH]; intros Hw ops d li a rest H Ho.
  - exists d, li, ops. auto.
  - cbn [forallb] in Hw. apply andb_true_iff in Hw. destruct Hw as [Hw Hws].
    destruct w as [sp f | s].
    + cbn [command_line flat_map written] in H. rewrite <- app_assoc in H.
      destruct (getopt_long_flag sp f d li ops _ H Ho)
        as (d1 & li1 & G & Oa & H1).
      destruct (IH Hws [] d1 li1 (effect a f) rest H1 eq_refl)
        as (d2 & li2 & ops2 & Ho2 & H2 & L).
      exists d2, li2, ops2. split; [assumption |]. split; [assumption |].
      intros fuel. cbn [flags List.length Nat.add Parse_loop].
      rewrite G, code_not_end, Oa, Parse_switch_code. apply L.
    + cbn [command_line flat_map written app] in H.
      change (s :: flat_map written ws ++ rest)
        with ([s] ++ command_line ws ++ rest) in H.
      rewrite app_assoc in H.
      apply (IH Hws (ops ++ [s]) d li a rest H).
      rewrite forallb_app, Ho. cbn [forallb well_formed] in *.
      rewrite Hw. reflexivity.
Qed.

Lemma at_words_initialize (prog : string) (args : list string) :
  at_words (getopt_initialize (prog :: args)) ([] ++ args).
Proof. constructor; cbn; try reflexivity; lia. Qed.

(** What [Parse] answers is read off any run of the loop that ends. *)
Lemma Parse_of_loop (tr absoluteFilePath : string -> string)
    (a : CommandlineOptions) (n : nat) (r : loop_exit) :
  Parse_loop tr n (getopt_initialize (argv_ a)) 0 a = Some r ->
  Parse tr absoluteFilePath a =
  Some match r with
       | Return d a' out => (false, set_argv_ (argv d) a', out)
       | Break d option_index a' =>
           (true,
            set_urls (Parse_urls absoluteFilePath option_index (argv d)
                        (urls_ a'))
              (set_argv_ (argv d) a'), [])
       end.
Proof.
  intros E. unfold Parse.
  destruct (Parse_loop_terminates tr a) as [r' E'].
  pose proof (Parse_loop_mono _ _ _ _ _ _ (Nat.max n (Parse_fuel (argv_ a))) E
                (Nat.le_max_l _ _)) as M.
  pose proof (Parse_loop_mono _ _ _ _ _ _ (Nat.max n (Parse_fuel (argv_ a))) E'
                (Nat.le_max_r _ _)) as M'.
  rewrite E'. assert (r' = r) by congruence. subst r'.
  destruct r; reflexivity.
Qed.

Lemma permute_argv_same (d : getopt_data) :
  first_nonopt d = last_nonopt d -> last_nonopt d <= optind d ->
  argv (permute d) = argv d.
Proof.
  intros H1 H2. unfold permute.
  destruct (Nat.ltb_spec (optind d) (last_nonopt d)); [lia |].
  destruct (Nat.ltb_spec (optind d) (first_nonopt d)); [lia |].
  rewrite H1, Nat.eqb_refl. cbn [negb andb].
  destruct (negb (last_nonopt d =? optind d)); reflexivity.
Qed.

(** With operands only left, the scan ends; the argument vector has not
    been touched if no operand was waiting to be moved. *)
Lemma getopt_long_at_end (d : getopt_data) (li : nat) (ops : list string) :
  at_words d ops -> forallb NONOPTION_P ops = true ->
  exists d', getopt_long kOptstring kOptions d li = ((-1)%Z, d', li) /\
             (first_nonopt d = last_nonopt d -> argv d' = argv d).
Proof.
  intros H Ho. rewrite <- (app_nil_r ops) in H.
  destruct (permute_words d ops [] H Ho I) as [P _].
  pose proof (at_words_end _ P) as E.
  unfold getopt_long. destruct (argc d <? 1); [eauto |].
  destruct H as [_ H2 _ H4 _]. cbn [nextchar set_optarg]. rewrite H4.
  assert (Q : end_of_options (permute (set_optarg None d))
              = permute (set_optarg None d)).
  { unfold end_of_options. rewrite E, Nat.eqb_refl. reflexivity. }
  rewrite Q, E, Nat.eqb_refl. eexists. split; [reflexivity |].
  intros H1.
  destruct (negb (_ =? _)); simpl_data;
    exact (permute_argv_same (set_optarg None d) H1 H2).
Qed.

Lemma same_fields_result (us : list QUrl) (v : list string)
    (a : CommandlineOptions) :
  same_fields (set_urls us (set_argv_ v a)) a.
Proof. intros fd. destruct fd; reflexivity. Qed.

Lemma same_fields_set_argv (v : list string) (a : CommandlineOptions) :
  same_fields (set_argv_ v a) a.
Proof. intros fd. destruct fd; reflexivity. Qed.

(** A command line of flags and operands is accepted, and every field but
    the URLs (and the argument vector, which has been permuted) is what the
    flags make of it, in the order they are written. *)
Lemma Parse_words (tr absoluteFilePath : string -> string) (prog : string)
    (ws : list word) :
  forallb well_formed ws = true ->
  let a := CommandlineOptions_new (prog :: command_line ws) in
  exists a',
    Parse tr absoluteFilePath a = Some (true, a', []) /\
    same_fields a' (effects ws a).
Proof.
  intros Hw a.
  pose proof (at_words_initialize prog (command_line ws)) as H.
  rewrite <- (app_nil_r (command_line ws)) in H.
  destruct (Parse_loop_words tr ws Hw _ _ 0 a _ H eq_refl)
    as (d & li & ops & Ho & H1 & L).
  rewrite app_nil_r in H1.
  destruct (getopt_long_at_end d li ops H1 Ho) as (d' & G & _).
  assert (E : Parse_loop tr (List.length (flags ws) + 1)
                (getopt_initialize (argv_ a)) 0 a
              = Some (Break d' li (effects ws a))).
  { cbn [argv_ a CommandlineOptions_new]. rewrite app_nil_r in L.
    rewrite L. cbn [Parse_loop]. rewrite G. reflexivity. }
  rewrite (Parse_of_loop tr absoluteFilePath _ _ _ E).
  eexists. split; [reflexivity | apply same_fields_result].
Qed.

(** ** Words that stop the scan *)

Lemma getopt_long_at_dash (d : getopt_data) (li : nat) (ops : list string)
    (c : ascii) (r : string) (rest : list string) :
  at_words d (ops ++ String "-" (String c r) :: rest) ->
  forallb NONOPTION_P ops = true ->
  (c = "-"%char -> r <> ""%string) ->
  exists d1,
    getopt_long kOptstring kOptions d li =
    if Ascii.eqb c "-"
    then process_long_option kOptions (set_nextchar r d1) li
    else let (x, d') := getopt_short kOptstring c r d1 in (x, d', li).
Proof.
  intros H Ho Hr.
  destruct (getopt_long_at_word d li ops _ rest H Ho eq_refl) as (d1 & _ & _ & G).
  - intros E. inversion E. subst. now apply Hr.
  - exists d1. rewrite G.
    destruct c as [[] [] [] [] [] [] [] []]; reflexivity.
Qed.

Lemma prefix_refl (s : string) : prefix s s = true.
Proof.
  induction s as [| c s IH]; [reflexivity |].
  simpl. destruct (ascii_dec c c); [assumption | contradiction].
Qed.

Lemma not_found (n : string) (l : list struct_option) :
  forallb (fun p => negb (prefix n (name p))) l = true ->
  forall i acc,
    find_exact l n i = None /\ find_abbrev l n i acc false = (acc, false).
Proof.
  induction l as [| p l IH]; intros H i acc; [auto |].
  cbn [forallb] in H. apply andb_true_iff in H. destruct H as [Hp Hl].
  apply negb_true_iff in Hp. cbn [find_exact find_abbrev]. rewrite Hp.
  destruct (String.eqb_spec (name p) n) as [E |].
  - rewrite E, prefix_refl in Hp. discriminate.
  - apply IH. assumption.
Qed.

Lemma not_a_letter (c : ascii) :
  existsb (Ascii.eqb c) (list_ascii_of_string "hptusrfvalko") = false ->
  strchr kOptstring c = None \/ (Ascii.eqb c ":" || Ascii.eqb c ";") = true.
Proof.
  destruct c as [[] [] [] [] [] [] [] []]; intros H;
    first [discriminate H | left; reflexivity | right; reflexivity].
Qed.

Lemma getopt_long_unrecognized (d : getopt_data) (li : nat)
    (ops : list string) (w : string) (more : list string) :
  at_words d (ops ++ w :: more) ->
  forallb NONOPTION_P ops = true ->
  unrecognized w = true ->
  exists d' li', getopt_long kOptstring kOptions d li = (QUESTION, d', li').
Proof.
  intros H Ho U. destruct w as [| dash [| c r]]; try discriminate U.
  cbn [unrecognized] in U. apply andb_true_iff in U. destruct U as [D U].
  apply Ascii.eqb_eq in D. subst dash.
  destruct (getopt_long_at_dash d li ops c r more H Ho) as [d1 G].
  - intros ->. rewrite Ascii.eqb_refl in U.
    apply andb_true_iff in U. destruct U as [U _].
    intros ->. discriminate U.
  - rewrite G. destruct (Ascii.eqb c "-").
    + apply andb_true_iff in U. destruct U as [_ U].
      unfold process_long_option. cbn [nextchar set_nextchar].
      destruct (nameend r) as [n value]. cbn [fst] in U.
      destruct (not_found n kOptions U 0 None) as [-> ->].
      eexists _, _. reflexivity.
    + apply negb_true_iff in U.
      unfold getopt_short.
      destruct (not_a_letter c U) as [-> | E].
      * destruct r; eexists _, _; reflexivity.
      * destruct (strchr kOptstring c); rewrite ?E;
          destruct r; eexists _, _; reflexivity.
Qed.

Lemma getopt_long_help (d : getopt_data) (li : nat) (ops : list string)
    (w : string) (more : list string) :
  at_words d (ops ++ w :: more) ->
  forallb NONOPTION_P ops = true ->
  is_help w = true ->
  exists d' li', getopt_long kOptstring kOptions d li = (chr "h", d', li').
Proof.
  intros H Ho U. apply orb_true_iff in U.
  destruct U as [U | U]; apply String.eqb_eq in U; subst w;
    look_at_word H Ho li; eexists _, _; reflexivity.
Qed.

Lemma getopt_long_lacks_argument (d : getopt_data) (li : nat)
    (ops : list string) (w : string) :
  at_words d (ops ++ [w]) ->
  forallb NONOPTION_P ops = true ->
  lacks_argument w = true ->
  exists d' li', getopt_long kOptstring kOptions d li = (QUESTION, d', li').
Proof.
  intros H Ho U.
  unfold lacks_argument in U. cbn [existsb] in U.
  repeat (apply orb_true_iff in U; destruct U as [U | U]);
    try discriminate U;
    apply String.eqb_eq in U; subst w;
    look_at_word H Ho li;
    destruct (skipn_cons _ _ _ _ ""%string K5) as (A1 & A2 & A3);
    (assert (E : List.length v = S oi)
      by (pose proof (length_skipn (S oi) v) as L; rewrite A3 in L;
          simpl in L; lia));
    (assert (C1 : (S oi <? List.length v) = false)
      by (apply Nat.ltb_ge; lia));
    (assert (C2 : (S oi =? List.length v) = true)
      by (apply Nat.eqb_eq; lia));
    scanner_compute; rewrite ?C1, ?C2;
    eexists _, _; reflexivity.
Qed.

(** After flags and operands, a word at which [getopt_long] returns a
    value the [switch] leaves [Parse] for ends the call: the result is
    false, and the fields hold what the flags before made of them. *)
Lemma Parse_aborts (tr absoluteFilePath : string -> string) (prog : string)
    (ws : list word) (rest : list string) (c : Z) (out : list HelpText) :
  forallb well_formed ws = true ->
  (forall d li ops,
     at_words d (ops ++ rest) -> forallb NONOPTION_P ops = true ->
     exists d' li', getopt_long kOptstring kOptions d li = (c, d', li')) ->
  c <> (-1)%Z ->
  (forall oa a, Parse_switch tr c oa a = ReturnFalse out) ->
  let a := CommandlineOptions_new (prog :: command_line ws ++ rest) in
  exists a',
    Parse tr absoluteFilePath a = Some (false, a', out) /\
    same_fields a' (effects ws a).
Proof.
  intros Hw G Hc Sw a.
  pose proof (at_words_initialize prog (command_line ws ++ rest)) as H.
  destruct (Parse_loop_words tr ws Hw _ _ 0 a _ H eq_refl)
    as (d & li & ops & Ho & H1 & L).
  destruct (G d li ops H1 Ho) as (d' & li' & G').
  assert (E : Parse_loop tr (List.length (flags ws) + 1)
                (getopt_initialize (argv_ a)) 0 a
              = Some (Return d' (effects ws a) out)).
  { cbn [argv_ a CommandlineOptions_new]. rewrite L. cbn [Parse_loop].
    rewrite G'. destruct (Z.eqb_spec c (-1)); [contradiction |].
    rewrite Sw. reflexivity. }
  rewrite (Parse_of_loop tr absoluteFilePath _ _ _ E).
  eexists. split; [reflexivity | apply same_fields_set_argv].
Qed.

(** ** Flags that set the same field *)

Lemma field_eqb_spec (x y : field) : reflect (x = y) (field_eqb x y).
Proof. destruct x, y; constructor; congruence. Qed.

Lemma field_value_set (a b : CommandlineOptions) (f : flag) :
  field_value (field_of f) (effect a f) = field_value (field_of f) (effect b f).
Proof. destruct f; reflexivity. Qed.

Lemma field_value_other (a : CommandlineOptions) (f : flag) (fd : field) :
  field_of f <> fd -> field_value fd (effect a f) = field_value fd a.
Proof. destruct f, fd; intros H; try reflexivity; contradiction. Qed.

Lemma effects_last_wins (fd : field) (ws : list word)
    (a : CommandlineOptions) :
  field_value fd (effects ws a) = last_wins fd ws a.
Proof.
  unfold last_wins, last_setting, effects.
  induction (flags ws) as [| f fs IH] using rev_ind; [reflexivity |].
  rewrite fold_left_app, rev_app_distr. cbn [fold_left rev app find].
  destruct (field_eqb_spec (field_of f) fd) as [<- | N].
  - apply field_value_set.
  - rewrite field_value_other by assumption. exact IH.
Qed.

Lemma flags_app (ws1 ws2 : list word) :
  flags (ws1 ++ ws2) = flags ws1 ++ flags ws2.
Proof.
  induction ws1 as [| [sp f | s] ws1 IH]; cbn [app flags];
    rewrite ?IH; reflexivity.
Qed.

Lemma effects_app (ws1 ws2 : list word) (a : CommandlineOptions) :
  effects (ws1 ++ ws2) a = effects ws2 (effects ws1 a).
Proof. unfold effects. rewrite flags_app, fold_left_app. reflexivity. Qed.

Lemma toInt_or_sentinel_fails (v : string) :
  snd (toInt (Some v)) = false -> toInt_or_sentinel (Some v) = (-1)%Z.
Proof.
  unfold toInt_or_sentinel. destruct (toInt (Some v)) as [x ok].
  cbn [snd]. intros ->. reflexivity.
Qed.

Lemma Parse_help (tr absoluteFilePath : string -> string) (prog : string)
    (ws : list word) (w : string) (more : list string) :
  forallb well_formed ws = true ->
  is_help w = true ->
  let a := CommandlineOptions_new (prog :: command_line ws ++ w :: more) in
  exists a',
    Parse tr absoluteFilePath a = Some (false, a', [translated_help_text tr]) /\
    same_fields a' (effects ws a).
Proof.
  intros Hw H. apply Parse_aborts with (c := chr "h").
  - assumption.
  - intros d li ops Hd Ho. exact (getopt_long_help d li ops w more Hd Ho H).
  - discriminate.
  - reflexivity.
Qed.

Lemma QUESTION_leaves (tr : string -> string) (oa : option string)
    (a : CommandlineOptions) :
  Parse_switch tr QUESTION oa a = ReturnFalse [].
Proof. reflexivity. Qed.

Lemma Parse_unrecognized (tr absoluteFilePath : string -> string)
    (prog : string) (ws : list word) (w : string) (more : list string) :
  forallb well_formed ws = true ->
  unrecognized w = true ->
  let a := CommandlineOptions_new (prog :: command_line ws ++ w :: more) in
  exists a',
    Parse tr absoluteFilePath a = Some (false, a', []) /\
    same_fields a' (effects ws a).
Proof.
  intros Hw H. apply Parse_aborts with (c := QUESTION).
  - assumption.
  - intros d li ops Hd Ho.
    exact (getopt_long_unrecognized d li ops w more Hd Ho H).
  - discriminate.
  - apply QUESTION_leaves.
Qed.

Lemma Parse_lacks_argument (tr absoluteFilePath : string -> string)
    (prog : string) (ws : list word) (w : string) :
  forallb well_formed ws = true ->
  lacks_argument w = true ->
  let a := CommandlineOptions_new (prog :: command_line ws ++ [w]) in
  exists a',
    Parse tr absoluteFilePath a = Some (false, a', []) /\
    same_fields a' (effects ws a).
Proof.
  intros Hw H. apply Parse_aborts with (c := QUESTION).
  - assumption.
  - intros d li ops Hd Ho.
    exact (getopt_long_lacks_argument d li ops w Hd Ho H).
  - discriminate.
  - apply QUESTION_leaves.
Qed.

(** Running the loop on a given argument vector. *)
Ltac run_Parse n :=
  match goal with
  | |- context [Parse ?tr ?abs ?a] =>
      let E := fresh "E" in
      eassert (E : Parse_loop tr n (getopt_initialize (argv_ a)) 0 a = Some _)
        by (vm_compute; reflexivity);
      rewrite (Parse_of_loop tr abs a n _ E); clear E
  end.

Lemma is_empty_deviates (a : CommandlineOptions) :
  (deviates a -> is_empty a = false) /\ (~ deviates a -> is_empty a = true).
Proof.
  unfold deviates. split.
  - intros H. destruct (is_empty a) eqn:E; [| reflexivity].
    apply is_empty_true_iff in E.
    destruct E as (E1 & E2 & E3 & E4 & E5 & E6 & E7).
    destruct H as [H | [H | [H | [H | [H | [H | H]]]]]]; contradiction.
  - intros H. apply is_empty_true_iff.
    repeat split;
      match goal with
      | |- urls_ a = [] =>
          destruct (urls_ a) eqn:U; [reflexivity |];
          exfalso; apply H; repeat right; discriminate
      | |- show_osd_ a = false =>
          destruct (show_osd_ a) eqn:U; [| reflexivity];
          exfalso; apply H; do 5 right; left; discriminate
      | |- ?x = ?y =>
          destruct (Z.eq_dec x y) as [| N]; [assumption |];
          exfalso; apply H; tauto
      end.
Qed.

(** ** The claims about [Parse] *)

Local Open Scope Z_scope.

(** C3: it fails that every command line with -h in it ends in the help
    text: after an unrecognized flag, [Parse] returns false and has written
    nothing. *)
Lemma help_after_unrecognized_counterexample :
  let args := ["--not-a-flag"; "-h"] in
  ~ (In "-h" args ->
     exists a',
       Parse (fun s => s) (fun s => s)
         (CommandlineOptions_new ("clementine" :: args))
       = Some (false, a', [translated_help_text (fun s => s)])).
Proof.
  intros args H. destruct H as [a' H]; [right; left; reflexivity |].
  vm_compute in H. discriminate H.
Qed.

(** C3 (amended): when -h or --help comes after recognized flags and
    operands only, [Parse] writes the help text and returns false, whatever
    follows; the words after it have no effect, and the fields hold what
    the flags before it set. *)
Theorem help_stops_the_scan (tr absoluteFilePath : string -> string)
    (prog : string) (ws : list word) (w : string) (more : list string) :
  forallb well_formed ws = true ->
  is_help w = true ->
  let a := CommandlineOptions_new (prog :: command_line ws ++ w :: more) in
  exists a',
    Parse tr absoluteFilePath a = Some (false, a', [translated_help_text tr]) /\
    same_fields a' (effects ws a).
Proof.
  intros Hw H.
  apply Parse_aborts with (c := chr "h").
  - exact Hw.
  - intros d li ops Hd Ho.
    exact (getopt_long_help d li ops w more Hd Ho H).
  - discriminate.
  - intros oa a. reflexivity.
Qed.

Lemma help_stops_the_scan_witness :
  forallb well_formed [] = true /\
  is_help "-h" = true /\
  exists a',
    Parse (fun s => s) (fun s => s)
      (CommandlineOptions_new ["clementine"; "-h"; "-p"])
    = Some (false, a', [translated_help_text (fun s => s)]) /\
    player_action_ a' = Player_None.
Proof.
  split; [reflexivity |]. split; [reflexivity |].
  destruct (help_stops_the_scan (fun s => s) (fun s => s) "clementine" []
              "-h" ["-p"] eq_refl eq_refl) as (a' & E & F).
  exists a'. split; [exact E | exact (F player_action)].
Defined.

(** C4: it fails that the caller can tell an unrecognized flag from a
    request for help: [Parse] returns false both times and leaves the same
    fields in the object. *)
Lemma same_answer_counterexample :
  ~ (caller_view (Parse (fun s => s) (fun s => s)
                    (CommandlineOptions_new ["clementine"; "--not-a-flag"]))
     <> caller_view (Parse (fun s => s) (fun s => s)
                       (CommandlineOptions_new ["clementine"; "-h"]))).
Proof. intros H. apply H. vm_compute. reflexivity. Qed.

(** C4 (amended): when, after recognized flags and operands, the scan
    comes to an unrecognized flag, or to a flag that takes an argument and
    is the last word, [Parse] stops there and returns false without writing
    anything.  A request for help in the same place returns false too: the
    two differ in the help text on standard output, not in what [Parse]
    returns. *)
Theorem unrecognized_flag_returns_false
    (tr absoluteFilePath : string -> string) (prog : string)
    (ws : list word) (w : string) (more : list string) :
  forallb well_formed ws = true ->
  unrecognized w = true \/ (lacks_argument w = true /\ more = []) ->
  (let a := CommandlineOptions_new (prog :: command_line ws ++ w :: more) in
   exists a',
     Parse tr absoluteFilePath a = Some (false, a', []) /\
     same_fields a' (effects ws a)) /\
  (forall h : string,
     is_help h = true ->
     let b := CommandlineOptions_new (prog :: command_line ws ++ h :: more) in
     exists b',
       Parse tr absoluteFilePath b
       = Some (false, b', [translated_help_text tr]) /\
       same_fields b' (effects ws b)).
Proof.
  intros Hw H. split.
  - destruct H as [H | [H ->]].
    + apply Parse_unrecognized; assumption.
    + apply Parse_lacks_argument; assumption.
  - intros h Hh. apply Parse_help; assumption.
Qed.

Lemma unrecognized_flag_returns_false_witness :
  forallb well_formed [] = true /\
  (unrecognized "--not-a-flag" = true \/
   (lacks_argument "--not-a-flag" = true /\ @nil string = [])) /\
  exists a',
    Parse (fun s => s) (fun s => s)
      (CommandlineOptions_new ["clementine"; "--not-a-flag"])
    = Some (false, a', []).
Proof.
  split; [reflexivity |]. split; [left; reflexivity |].
  destruct (proj1 (unrecognized_flag_returns_false (fun s => s) (fun s => s)
                     "clementine" [] "--not-a-flag" [] eq_refl
                     (or_introl eq_refl))) as (a' & E & _).
  exists a'. exact E.
Defined.

(** C5: on a command line of flags and operands, [Parse] accepts and every
    field holds what the last flag that sets it assigns (or its default
    when none does), whatever was set before: nothing accumulates and a
    repetition is no error.  So ["-p"; "-s"] gives Stop and ["-a"; "-l"]
    gives Load. *)
Theorem last_flag_wins (tr absoluteFilePath : string -> string)
    (prog : string) (ws : list word) :
  forallb well_formed ws = true ->
  (let a := CommandlineOptions_new (prog :: command_line ws) in
   exists a',
     Parse tr absoluteFilePath a = Some (true, a', []) /\
     forall fd, field_value fd a' = last_wins fd ws a) /\
  (exists a',
     Parse tr absoluteFilePath (CommandlineOptions_new [prog; "-p"; "-s"])
     = Some (true, a', []) /\ player_action_ a' = Player_Stop) /\
  (exists a',
     Parse tr absoluteFilePath (CommandlineOptions_new [prog; "-a"; "-l"])
     = Some (true, a', []) /\ url_list_action_ a' = UrlList_Load).
Proof.
  intros Hw.
  assert (G : forall ws,
             forallb well_formed ws = true ->
             let a := CommandlineOptions_new (prog :: command_line ws) in
             exists a',
               Parse tr absoluteFilePath a = Some (true, a', []) /\
               forall fd, field_value fd a' = last_wins fd ws a).
  { intros ws0 Hw0 a.
    destruct (Parse_words tr absoluteFilePath prog ws0 Hw0) as (a' & E & F).
    exists a'. split; [exact E |].
    intros fd. rewrite (F fd). apply effects_last_wins. }
  split; [apply G; assumption |]. split.
  - destruct (G [Flag Short F_play; Flag Short F_stop] eq_refl) as (a' & E & F).
    exists a'. split; [exact E | exact (F player_action)].
  - destruct (G [Flag Short F_append; Flag Short F_load] eq_refl)
      as (a' & E & F).
    exists a'. split; [exact E | exact (F url_list_action)].
Qed.

Lemma last_flag_wins_witness :
  forallb well_formed
    [Flag Long F_play; Operand "a.mp3"; Flag Equals (F_volume "50");
     Flag Short F_stop; Flag Short (F_volume "70")] = true /\
  exists a',
    Parse (fun s => s) (fun s => s)
      (CommandlineOptions_new
         ["clementine"; "--play"; "a.mp3"; "--volume=50"; "-s"; "-v"; "70"])
    = Some (true, a', []) /\
    player_action_ a' = Player_Stop /\ set_volume_ a' = 70.
Proof.
  split; [reflexivity |].
  destruct (proj1 (last_flag_wins (fun s => s) (fun s => s) "clementine"
                     [Flag Long F_play; Operand "a.mp3";
                      Flag Equals (F_volume "50");
                      Flag Short F_stop; Flag Short (F_volume "70")] eq_refl))
    as (a' & E & F).
  exists a'. split; [exact E |].
  split; [exact (F player_action) | exact (F set_volume)].
Defined.

(** C6: when the argument of --volume, --seek-to or --play-track (in any
    spelling) is no integer, [Parse] does not fail: the field becomes -1 on
    top of what the flags before made, and the flags after are applied as
    usual. *)
Theorem malformed_number_is_sentinel
    (tr absoluteFilePath : string -> string) (prog : string)
    (ws1 ws2 : list word) (sp : spelling) (v : string) :
  forallb well_formed ws1 = true ->
  forallb well_formed ws2 = true ->
  snd (toInt (Some v)) = false ->
  (let a := CommandlineOptions_new
              (prog :: command_line (ws1 ++ Flag sp (F_volume v) :: ws2)) in
   exists a',
     Parse tr absoluteFilePath a = Some (true, a', []) /\
     same_fields a' (effects ws2 (set_set_volume (-1) (effects ws1 a)))) /\
  (let a := CommandlineOptions_new
              (prog :: command_line (ws1 ++ Flag sp (F_seek_to v) :: ws2)) in
   exists a',
     Parse tr absoluteFilePath a = Some (true, a', []) /\
     same_fields a' (effects ws2 (set_seek_to (-1) (effects ws1 a)))) /\
  (let a := CommandlineOptions_new
              (prog :: command_line (ws1 ++ Flag sp (F_play_track v) :: ws2)) in
   exists a',
     Parse tr absoluteFilePath a = Some (true, a', []) /\
     same_fields a' (effects ws2 (set_play_track_at (-1) (effects ws1 a)))).
Proof.
  intros H1 H2 H. apply toInt_or_sentinel_fails in H.
  repeat split; intros a;
    match goal with
    | a := CommandlineOptions_new (prog :: command_line ?ws) |- _ =>
        destruct (Parse_words tr absoluteFilePath prog ws) as (a' & E & F);
        [ rewrite forallb_app; cbn [forallb well_formed];
          rewrite H1, H2; reflexivity |];
        exists a'; split; [exact E |];
        intros fd; rewrite (F fd);
        change (?x :: ws2) with ([x] ++ ws2);
        rewrite !effects_app; unfold effects at 2;
        cbn [flags fold_left effect]; rewrite H; reflexivity
    end.
Qed.

Lemma malformed_number_is_sentinel_witness :
  forallb well_formed [] = true /\
  snd (toInt (Some "notanumber")) = false /\
  exists a',
    Parse (fun s => s) (fun s => s)
      (CommandlineOptions_new ["clementine"; "--volume"; "notanumber"])
    = Some (true, a', []) /\ set_volume_ a' = -1.
Proof.
  split; [reflexivity |]. split; [reflexivity |].
  destruct (proj1 (malformed_number_is_sentinel (fun s => s) (fun s => s)
                     "clementine" [] [] Long "notanumber"
                     eq_refl eq_refl eq_refl))
    as (a' & E & F).
  exists a'. split; [exact E | exact (F set_volume)].
Defined.

(** C7: the positional arguments are taken from [option_index + 1] on,
    where [option_index] is the place in [kOptions] of the last long option
    (0 when there was none).  Without flags this gives what the claim says:
    ["song.mp3"; "http://example.com/x"] become a local file URL and the
    remote URL.  After --play-pause, third in the table, the file name is
    not appended at all; after -p, the flag itself is appended as a file. *)
Theorem positional_arguments_from_option_index
    (tr absoluteFilePath : string -> string) (prog : string) :
  (exists a',
     Parse tr absoluteFilePath
       (CommandlineOptions_new [prog; "song.mp3"; "http://example.com/x"])
     = Some (true, a', []) /\
     urls_ a' = [QUrl_fromLocalFile (absoluteFilePath "song.mp3");
                 QUrl_of_QString "http://example.com/x"]) /\
  (exists a',
     Parse tr absoluteFilePath
       (CommandlineOptions_new [prog; "--play-pause"; "song.mp3"])
     = Some (true, a', []) /\
     player_action_ a' = Player_PlayPause /\
     urls_ a' = []) /\
  (exists a',
     Parse tr absoluteFilePath
       (CommandlineOptions_new [prog; "-p"; "song.mp3"])
     = Some (true, a', []) /\
     player_action_ a' = Player_Play /\
     urls_ a' = [QUrl_fromLocalFile (absoluteFilePath "-p");
                 QUrl_fromLocalFile (absoluteFilePath "song.mp3")]).
Proof.
  repeat split; run_Parse 4%nat; eexists; repeat split.
Qed.

(** C8: on ["-p"; "a.mp3"; "-o"; "b.mp3"] the flags are applied and
    [getopt_long] moves them in front of the file names, but the URLs are
    taken from index 1 on: the two flags are appended as files before the
    two file names. *)
Theorem interleaved_flags_become_urls
    (tr absoluteFilePath : string -> string) (prog : string) :
  exists a',
    Parse tr absoluteFilePath
      (CommandlineOptions_new [prog; "-p"; "a.mp3"; "-o"; "b.mp3"])
    = Some (true, a', []) /\
    argv_ a' = [prog; "-p"; "-o"; "a.mp3"; "b.mp3"] /\
    player_action_ a' = Player_Play /\
    show_osd_ a' = true /\
    urls_ a' = [QUrl_fromLocalFile (absoluteFilePath "-p");
                QUrl_fromLocalFile (absoluteFilePath "-o");
                QUrl_fromLocalFile (absoluteFilePath "a.mp3");
                QUrl_fromLocalFile (absoluteFilePath "b.mp3")].
Proof.
  run_Parse 4%nat. eexists. repeat split.
Qed.

(** C9: it fails that [is_empty] is false as soon as a field is off its
    default: after ["--load"] the URL list action is Load and [is_empty]
    is true. *)
Lemma load_alone_counterexample :
  ~ (forall a',
       Parse (fun s => s) (fun s => s)
         (CommandlineOptions_new ["clementine"; "--load"])
       = Some (true, a', []) ->
       url_list_action_ a' <> UrlList_Append ->
       is_empty a' = false).
Proof.
  intros H.
  specialize (H (set_url_list_action UrlList_Load
                   (CommandlineOptions_new ["clementine"; "--load"]))).
  discriminate H; [reflexivity | discriminate].
Qed.

(** The six fields [is_empty] reads beside [urls_], each at its default in
    an object, decide with [urls_] alone. *)
Lemma is_empty_of_defaults (a' a : CommandlineOptions) :
  (forall fd, fd <> url_list_action -> field_value fd a' = field_value fd a) ->
  is_empty a = true ->
  (is_empty a' = true <-> urls_ a' = []).
Proof.
  intros H E. apply is_empty_true_iff in E.
  destruct E as (E1 & E2 & E3 & E4 & E5 & E6 & _).
  pose proof (H player_action ltac:(discriminate)) as F1.
  pose proof (H set_volume ltac:(discriminate)) as F2.
  pose proof (H volume_modifier ltac:(discriminate)) as F3.
  pose proof (H seek_to ltac:(discriminate)) as F4.
  pose proof (H play_track_at ltac:(discriminate)) as F5.
  pose proof (H show_osd ltac:(discriminate)) as F6.
  cbn [field_value] in F1, F2, F3, F4, F5, F6. rewrite E6 in F6.
  rewrite is_empty_true_iff. split.
  - intros (_ & _ & _ & _ & _ & _ & U). exact U.
  - intros U. repeat split; try congruence.
    destruct (show_osd_ a'); [discriminate F6 | reflexivity].
Qed.

(** A field [is_empty] reads that differs from its default makes it
    false. *)
Lemma is_empty_off_default (a' a : CommandlineOptions) (fd : field) :
  fd <> url_list_action ->
  field_value fd a' <> field_value fd a ->
  is_empty a = true ->
  is_empty a' = false.
Proof.
  intros N D E. apply is_empty_true_iff in E.
  destruct E as (E1 & E2 & E3 & E4 & E5 & E6 & _).
  destruct (is_empty a') eqn:E'; [| reflexivity].
  apply is_empty_true_iff in E'.
  destruct E' as (G1 & G2 & G3 & G4 & G5 & G6 & _).
  exfalso. destruct fd; cbn [field_value] in D;
    first [ contradiction N; reflexivity
          | apply D; congruence
          | apply D; rewrite E6, G6; reflexivity ].
Qed.

(** C9 (amended): a command line of flags is accepted, and the flags
    decide [is_empty] of the result through the six fields it reads beside
    the URLs.  When for one of these fields the last flag that sets it
    assigns a value other than the default, [is_empty] is false.  When the
    flags leave the six at their defaults (no flag, [--append], [--load], a
    number that is -1), [is_empty] is true exactly when [urls_] is empty;
    which URLs [Parse] collects on such a line is not part of this
    statement.  The URL list action is not looked at: after ["--load"] it
    is Load and [is_empty] is true; with no flag at all [is_empty] is
    true. *)
Theorem is_empty_after_flags (tr absoluteFilePath : string -> string)
    (prog : string) (ws : list (spelling * flag)) :
  (let fl := map (fun w => Flag (fst w) (snd w)) ws in
   let a := CommandlineOptions_new (prog :: command_line fl) in
   exists a',
     Parse tr absoluteFilePath a = Some (true, a', []) /\
     ((exists fd, fd <> url_list_action /\
                  last_wins fd fl a <> field_value fd a) ->
      is_empty a' = false) /\
     ((forall fd, fd <> url_list_action ->
                  last_wins fd fl a = field_value fd a) ->
      (is_empty a' = true <-> urls_ a' = []))) /\
  (exists a',
     Parse tr absoluteFilePath (CommandlineOptions_new [prog])
     = Some (true, a', []) /\
     is_empty a' = true) /\
  (exists a',
     Parse tr absoluteFilePath (CommandlineOptions_new [prog; "--load"])
     = Some (true, a', []) /\
     url_list_action_ a' = UrlList_Load /\
     is_empty a' = true).
Proof.
  split; [| split].
  - intros fl a.
    destruct (Parse_words tr absoluteFilePath prog fl) as (a' & E & F).
    + subst fl. induction ws as [| w ws IH]; [reflexivity | exact IH].
    + fold a in E, F. exists a'. split; [exact E |]. split.
      * intros (fd & N & D).
        apply (is_empty_off_default a' a fd N); [| reflexivity].
        rewrite (F fd), effects_last_wins. exact D.
      * intros H. apply (is_empty_of_defaults a' a); [| reflexivity].
        intros fd N. rewrite (F fd), effects_last_wins. apply H, N.
  - run_Parse 1%nat. eexists. repeat split.
  - run_Parse 2%nat. eexists. repeat split.
Qed.

Lemma is_empty_after_flags_witness :
  (exists fd,
     fd <> url_list_action /\
     last_wins fd [Flag Long F_load; Flag Short (F_volume "40")]
       (CommandlineOptions_new ["clementine"; "--load"; "-v"; "40"])
     <> field_value fd
          (CommandlineOptions_new ["clementine"; "--load"; "-v"; "40"])) /\
  exists a',
    Parse (fun s => s) (fun s => s)
      (CommandlineOptions_new ["clementine"; "--load"; "-v"; "40"])
    = Some (true, a', []) /\
    is_empty a' = false.
Proof.
  assert (D : exists fd,
            fd <> url_list_action /\
            last_wins fd [Flag Long F_load; Flag Short (F_volume "40")]
              (CommandlineOptions_new ["clementine"; "--load"; "-v"; "40"])
            <> field_value fd
                 (CommandlineOptions_new
                    ["clementine"; "--load"; "-v"; "40"]))
    by (exists set_volume; split; discriminate).
  split; [exact D |].
  destruct (proj1 (is_empty_after_flags (fun s => s) (fun s => s)
                     "clementine" [(Long, F_load); (Short, F_volume "40")]))
    as (a' & E & F & _).
  exists a'. split; [exact E | exact (F D)].
Defined.

(** On a command line of flags the URL loop of C7 decides [urls_], and with
    it [is_empty], by the spelling: the letter [-a] is itself collected and
    [is_empty] is false, the name [--append] leaves [urls_] empty and
    [is_empty] true. *)
Lemma append_spelling_and_is_empty (tr absoluteFilePath : string -> string)
    (prog : string) :
  (exists a',
     Parse tr absoluteFilePath (CommandlineOptions_new [prog; "-a"])
     = Some (true, a', []) /\
     urls_ a' = [QUrl_fromLocalFile (absoluteFilePath "-a")] /\
     is_empty a' = false) /\
  (exists a',
     Parse tr absoluteFilePath (CommandlineOptions_new [prog; "--append"])
     = Some (true, a', []) /\
     urls_ a' = [] /\
     is_empty a' = true).
Proof.
  split; run_Parse 2%nat; eexists; repeat split.
Qed.

(** C10: when the scan comes to an unrecognized flag after recognized
    flags (and operands), [Parse] returns false and the fields are left as
    those flags made them: each holds what the last flag that set it
    assigned; nothing is put back to the value the constructor gave. *)
Theorem failure_keeps_earlier_flags (tr absoluteFilePath : string -> string)
    (prog : string) (ws : list word) (w : string) (more : list string) :
  forallb well_formed ws = true ->
  unrecognized w = true ->
  let a := CommandlineOptions_new (prog :: command_line ws ++ w :: more) in
  exists a',
    Parse tr absoluteFilePath a = Some (false, a', []) /\
    same_fields a' (effects ws a) /\
    forall fd, field_value fd a' = last_wins fd ws a.
Proof.
  intros Hw H a.
  destruct (Parse_unrecognized tr absoluteFilePath prog ws w more Hw H)
    as (a' & E & F).
  exists a'. split; [exact E |]. split; [exact F |].
  intros fd. rewrite (F fd). apply effects_last_wins.
Qed.

Lemma failure_keeps_earlier_flags_witness :
  forallb well_formed [Flag Short F_play] = true /\
  unrecognized "--not-a-flag" = true /\
  exists a',
    Parse (fun s => s) (fun s => s)
      (CommandlineOptions_new ["clementine"; "-p"; "--not-a-flag"])
    = Some (false, a', []) /\
    player_action_ a' = Player_Play /\
    player_action_ a' <> player_action_ (CommandlineOptions_new []).
Proof.
  split; [reflexivity |]. split; [reflexivity |].
  destruct (failure_keeps_earlier_flags (fun s => s) (fun s => s) "clementine"
              [Flag Short F_play] "--not-a-flag" [] eq_refl eq_refl)
    as (a' & E & F & _).
  exists a'. split; [exact E |].
  pose proof (F player_action) as P. cbn in P.
  split; [exact P | rewrite P; discriminate].
Defined.

(** ** Operands alone *)

Local Open Scope nat_scope.

Lemma fold_left_add_url (absoluteFilePath : string -> string)
    (l : list string) (acc : list QUrl) :
  fold_left (add_url absoluteFilePath) l acc
  = acc ++ map (url_of_argument absoluteFilePath) l.
Proof.
  revert acc. induction l as [| v l IH]; intros acc; cbn [fold_left map].
  - now rewrite app_nil_r.
  - rewrite IH. unfold add_url, url_of_argument.
    destruct (contains "://" v); rewrite <- app_assoc; reflexivity.
Qed.

Lemma getopt_long_operands (prog : string) (ops : list string) (li : nat) :
  forallb NONOPTION_P ops = true ->
  exists d',
    getopt_long kOptstring kOptions (getopt_initialize (prog :: ops)) li
    = ((-1)%Z, d', li) /\
    argv d' = prog :: ops.
Proof.
  intros Ho.
  destruct (getopt_long_at_end _ li ops (at_words_initialize prog ops) Ho)
    as (d' & G & V).
  exists d'. split; [exact G | exact (V eq_refl)].
Qed.

(** Without flags, every argument is classified and appended in order. *)
Lemma Parse_operands (tr absoluteFilePath : string -> string) (prog : string)
    (ops : list string) :
  forallb NONOPTION_P ops = true ->
  let a := CommandlineOptions_new (prog :: ops) in
  Parse tr absoluteFilePath a
  = Some (true, set_urls (map (url_of_argument absoluteFilePath) ops) a, []).
Proof.
  intros Ho a.
  destruct (getopt_long_operands prog ops 0 Ho) as (d' & G & V).
  assert (E : Parse_loop tr 1 (getopt_initialize (argv_ a)) 0 a
              = Some (Break d' 0 a)).
  { cbn [Parse_loop argv_ a CommandlineOptions_new]. rewrite G. reflexivity. }
  rewrite (Parse_of_loop tr absoluteFilePath _ _ _ E), V.
  unfold Parse_urls. cbn [Nat.add skipn urls_ a CommandlineOptions_new].
  rewrite fold_left_add_url. reflexivity.
Qed.

(** * Further properties *)

(** ** What the loop of [Parse] keeps *)

Local Open Scope Z_scope.

Lemma toInt_range (oa : option string) : is_qint32 (fst (toInt oa)).
Proof.
  unfold toInt, is_qint32. destruct oa as [s |]; [| cbn [fst]; lia].
  destruct (toLongLong s) as [v |]; [| cbn [fst]; lia].
  destruct ((v <? - 2 ^ 31) || (2 ^ 31 - 1 <? v)) eqn:E; cbn [fst]; [lia |].
  apply orb_false_iff in E. destruct E as [E1 E2].
  apply Z.ltb_ge in E1, E2. lia.
Qed.

Lemma toInt_or_sentinel_range (oa : option string) :
  is_qint32 (toInt_or_sentinel oa).
Proof.
  unfold toInt_or_sentinel. pose proof (toInt_range oa) as R.
  destruct (toInt oa) as [v ok]. cbn [fst] in R.
  destruct ok; [assumption | unfold is_qint32; lia].
Qed.

Lemma in_range_new (v : list string) : in_range (CommandlineOptions_new v).
Proof.
  constructor; cbn;
    unfold is_qint32, Player_None, Player_Next, UrlList_Append, UrlList_Load;
    lia.
Qed.

Lemma Parse_switch_Continue (tr : string -> string) (c : Z)
    (oa : option string) (a a' : CommandlineOptions) :
  Parse_switch tr c oa a = Continue a' ->
  urls_ a' = urls_ a /\ argv_ a' = argv_ a /\ (in_range a -> in_range a').
Proof.
  unfold Parse_switch. intros H.
  pose proof (toInt_or_sentinel_range oa) as R.
  repeat match type of H with
         | (if ?b then _ else _) = _ => destruct b
         end;
    inversion H; subst; clear H;
    (split; [reflexivity |]; split; [reflexivity |]);
    intros [R1 R2 R3 R4 R5 R6]; constructor; cbn;
    unfold Player_None, Player_Play, Player_PlayPause, Player_Pause,
      Player_Stop, Player_Previous, Player_Next, UrlList_Append,
      UrlList_Load in *;
    try assumption; try lia.
Qed.

Lemma Parse_switch_ReturnFalse (tr : string -> string) (c : Z)
    (oa : option string) (a : CommandlineOptions) (out : list HelpText) :
  Parse_switch tr c oa a = ReturnFalse out ->
  out = [] \/ out = [translated_help_text tr].
Proof.
  unfold Parse_switch. intros H.
  repeat match type of H with
         | (if ?b then _ else _) = _ => destruct b
         end;
    inversion H; auto.
Qed.

(** However the loop is left, the URLs and the argument vector of the
    object are as they were, the fields are in range if they were, and at
    most the help text has been written, once. *)
Lemma Parse_loop_keeps (tr : string -> string) (fuel : nat) :
  forall (d : getopt_data) (li : nat) (a : CommandlineOptions) (r : loop_exit),
    Parse_loop tr fuel d li a = Some r ->
    match r with
    | Break _ _ a' =>
        urls_ a' = urls_ a /\ (in_range a -> in_range a')
    | Return _ a' out =>
        urls_ a' = urls_ a /\ (in_range a -> in_range a') /\
        (out = [] \/ out = [translated_help_text tr])
    end.
Proof.
  induction fuel as [| fuel IH]; intros d li a r E; [discriminate |].
  cbn [Parse_loop] in E.
  destruct (getopt_long kOptstring kOptions d li) as [[c d'] li'].
  destruct (c =? -1).
  - inversion E. auto.
  - destruct (Parse_switch tr c (optarg d') a) as [a1 | out] eqn:S.
    + destruct (Parse_switch_Continue _ _ _ _ _ S) as (U & _ & R).
      specialize (IH _ _ _ _ E).
      destruct r; rewrite <- U; intuition.
    + inversion E. subst.
      pose proof (Parse_switch_ReturnFalse _ _ _ _ _ S). auto.
Qed.

(** ** The argument vector is only reordered *)

Local Open Scope nat_scope.

Lemma segment_split {A} (b m : nat) (l : list A) :
  b <= m -> skipn b l = segment b m l ++ skipn m l.
Proof.
  intros H. unfold segment.
  rewrite <- (firstn_skipn (m - b) (skipn b l)) at 1.
  rewrite skipn_skipn. replace (m - b + b) with m by lia. reflexivity.
Qed.

Lemma exchange_Permutation (d : getopt_data) :
  first_nonopt d <= last_nonopt d -> last_nonopt d <= optind d ->
  Permutation (argv (exchange d)) (argv d).
Proof.
  intros H1 H2. unfold exchange. simpl_data.
  rewrite <- (firstn_skipn (first_nonopt d) (argv d)) at 5.
  rewrite (segment_split (first_nonopt d) (last_nonopt d)) by assumption.
  rewrite (segment_split (last_nonopt d) (optind d)) by assumption.
  apply Permutation_app_head. apply Permutation_app_swap_app.
Qed.

Lemma getopt_short_argv (optstring : string) (c : ascii) (rest : string)
    (d d' : getopt_data) (r : Z) :
  getopt_short optstring c rest d = (r, d') -> argv d' = argv d.
Proof.
  unfold getopt_short. intros E.
  destruct rest; cbn [set_nextchar set_optind optind nextchar] in E;
    split_match; inversion E; reflexivity.
Qed.

Lemma process_long_option_argv (longopts : list struct_option)
    (d d' : getopt_data) (li li' : nat) (r : Z) :
  process_long_option longopts d li = (r, d', li') -> argv d' = argv d.
Proof.
  unfold process_long_option. intros E.
  destruct (nameend (nextchar d)) as [nm value].
  destruct (match find_exact longopts nm 0 with
            | Some f => (Some f, false)
            | None => find_abbrev longopts nm 0 None false
            end) as [pfound ambig].
  split_match; inversion E; reflexivity.
Qed.

Lemma permute_Permutation (d : getopt_data) :
  first_nonopt d <= last_nonopt d -> last_nonopt d <= optind d ->
  Permutation (argv (permute d)) (argv d).
Proof.
  intros H1 H2. unfold permute.
  destruct (Nat.ltb_spec (optind d) (last_nonopt d)); [lia |].
  destruct (Nat.ltb_spec (optind d) (first_nonopt d)); [lia |].
  destruct (negb (first_nonopt d =? last_nonopt d)
            && negb (last_nonopt d =? optind d)).
  - simpl_data. apply exchange_Permutation; assumption.
  - destruct (negb (last_nonopt d =? optind d)); reflexivity.
Qed.

Lemma end_of_options_Permutation (d : getopt_data) :
  first_nonopt d <= last_nonopt d -> last_nonopt d <= optind d ->
  Permutation (argv (end_of_options d)) (argv d).
Proof.
  intros H1 H2. unfold end_of_options.
  destruct (negb (optind d =? argc d) && (arg_at d (optind d) =? "--")%string);
    [| reflexivity].
  set (d2 := set_optind (S (optind d)) d).
  destruct (negb (first_nonopt d2 =? last_nonopt d2)
            && negb (last_nonopt d2 =? optind d2)).
  - simpl_data. apply (exchange_Permutation d2); cbn; lia.
  - destruct (first_nonopt d2 =? last_nonopt d2); reflexivity.
Qed.

Lemma getopt_long_Permutation (optstring : string)
    (longopts : list struct_option) (d d' : getopt_data) (li li' : nat)
    (c : Z) :
  scanning d ->
  getopt_long optstring longopts d li = (c, d', li') ->
  Permutation (argv d') (argv d).
Proof.
  intros Hs E. unfold getopt_long in E.
  destruct (argc d <? 1); [inversion E; reflexivity |].
  cbn [nextchar set_optarg] in E.
  destruct (nextchar d) as [| c0 rest] eqn:Hn.
  - assert (S0 : scanning (set_optarg None d))
      by (destruct Hs; constructor; assumption).
    destruct (permute_scanning _ S0 Hn) as (P1 & P2 & P3 & P4 & P5).
    assert (Q : Permutation
                  (argv (end_of_options (permute (set_optarg None d))))
                  (argv d)).
    { rewrite end_of_options_Permutation by assumption.
      apply (permute_Permutation (set_optarg None d)); apply Hs. }
    remember (end_of_options (permute (set_optarg None d))) as d1 eqn:Hd1.
    clear Hd1.
    destruct (optind d1 =? argc d1).
    { inversion E; subst.
      destruct (negb (first_nonopt d1 =? last_nonopt d1)); exact Q. }
    destruct (NONOPTION_P (arg_at d1 (optind d1))).
    { inversion E; subst. exact Q. }
    destruct (arg_at d1 (optind d1)) as [| a0 [| c1 r]];
      try (inversion E; subst; exact Q).
    assert (R : process_long_option longopts (set_nextchar r d1) li
                = (c, d', li')
                \/ exists r0, getopt_short optstring c1 r d1 = (r0, d')).
    { destruct c1 as [[] [] [] [] [] [] [] []];
        try (right; destruct (getopt_short _ _ _ _) as [r0 d0];
             inversion E; subst; eauto; fail).
      left. exact E. }
    destruct R as [R | [r0 R]].
    + apply process_long_option_argv in R. rewrite R. exact Q.
    + apply getopt_short_argv in R. rewrite R. exact Q.
  - destruct (getopt_short optstring c0 rest (set_optarg None d))
      as [r0 d0] eqn:G.
    inversion E; subst. apply getopt_short_argv in G. rewrite G. reflexivity.
Qed.

Lemma Parse_loop_Permutation (tr : string -> string) (fuel : nat) :
  forall (d : getopt_data) (li : nat) (a : CommandlineOptions) (r : loop_exit),
    scanning d ->
    Parse_loop tr fuel d li a = Some r ->
    match r with
    | Break d' _ _ | Return d' _ _ => Permutation (argv d') (argv d)
    end.
Proof.
  induction fuel as [| fuel IH]; intros d li a r Hs E; [discriminate |].
  cbn [Parse_loop] in E.
  destruct (getopt_long kOptstring kOptions d li) as [[c d'] li'] eqn:G.
  pose proof (getopt_long_Permutation _ _ _ _ _ _ _ Hs G) as P.
  destruct (Z.eqb_spec c (-1)) as [| Hc].
  - inversion E. exact P.
  - destruct (getopt_long_progress _ _ _ _ _ _ _ Hs G Hc) as [Hs' _].
    destruct (Parse_switch tr c (optarg d') a) as [a1 | out].
    + specialize (IH _ _ _ _ Hs' E).
      destruct r; rewrite IH; exact P.
    + inversion E. exact P.
Qed.

Lemma in_range_result (us : list QUrl) (v : list string)
    (a : CommandlineOptions) :
  in_range a -> in_range (set_urls us (set_argv_ v a)).
Proof. intros [R1 R2 R3 R4 R5 R6]. constructor; assumption. Qed.

Lemma in_range_set_argv (v : list string) (a : CommandlineOptions) :
  in_range a -> in_range (set_argv_ v a).
Proof. intros [R1 R2 R3 R4 R5 R6]. constructor; assumption. Qed.

Lemma incl_skipn {A} (k : nat) (l : list A) : incl (skipn k l) l.
Proof.
  intros x H. rewrite <- (firstn_skipn k l). apply in_or_app. now right.
Qed.

(** Every call of [Parse] returns, and what it returns is tied to what it
    was given in the ways listed. *)
Lemma Parse_result (tr absoluteFilePath : string -> string)
    (a : CommandlineOptions) :
  exists b a' out,
    Parse tr absoluteFilePath a = Some (b, a', out) /\
    Permutation (argv_ a') (argv_ a) /\
    (in_range a -> in_range a') /\
    (out = [] \/ (b = false /\ out = [translated_help_text tr])) /\
    (b = false -> urls_ a' = urls_ a) /\
    (b = true ->
     exists extra,
       urls_ a' = urls_ a ++ map (url_of_argument absoluteFilePath) extra /\
       List.length extra <= List.length (argv_ a) - 1 /\
       incl extra (argv_ a)).
Proof.
  destruct (Parse_loop_terminates tr a) as [r E].
  pose proof (Parse_loop_keeps _ _ _ _ _ _ E) as K.
  assert (P : match r with
              | Break d' _ _ | Return d' _ _ =>
                  Permutation (argv d') (argv_ a)
              end).
  { destruct (argv_ a) as [| prog args] eqn:V.
    - cbn in E. inversion E. reflexivity.
    - apply Parse_loop_Permutation in E; [exact E |].
      constructor; cbn; try lia. congruence. }
  rewrite (Parse_of_loop tr absoluteFilePath _ _ _ E).
  destruct r as [d li a1 | d a1 out].
  - destruct K as [U R].
    exists true, (set_urls (Parse_urls absoluteFilePath li (argv d) (urls_ a1))
                   (set_argv_ (argv d) a1)), [].
    split; [reflexivity |]. split; [exact P |].
    split; [intros Ha; apply in_range_result; auto |].
    split; [auto |]. split; [discriminate |].
    intros _. exists (skipn (li + 1) (argv d)).
    cbn [urls_ set_urls]. unfold Parse_urls.
    rewrite fold_left_add_url, U. split; [reflexivity |].
    split.
    + rewrite length_skipn, (Permutation_length P). lia.
    + intros s Hs. apply (Permutation_in _ P).
      apply (incl_skipn _ _ _ Hs).
  - destruct K as (U & R & O).
    exists false, (set_argv_ (argv d) a1), out.
    split; [reflexivity |]. split; [exact P |].
    split; [intros Ha; apply in_range_set_argv; auto |].
    split; [destruct O; auto |]. split; [intros _; exact U | discriminate].
Qed.

(** ** What [Parse] does on every argument vector *)

(** X2: [Parse] writes nothing but the help text, at most once, and only
    when it returns false. *)
Theorem Parse_writes_only_help (tr absoluteFilePath : string -> string)
    (a : CommandlineOptions) :
  exists b a' out,
    Parse tr absoluteFilePath a = Some (b, a', out) /\
    (b = true -> out = []) /\
    (out = [] \/ out = [translated_help_text tr]).
Proof.
  destruct (Parse_result tr absoluteFilePath a)
    as (b & a' & out & E & _ & _ & O & _).
  exists b, a', out. split; [exact E |]. split.
  - intros ->. destruct O as [O | [O _]]; [exact O | discriminate O].
  - destruct O as [O | [_ O]]; auto.
Qed.

(** X3: [Parse] never removes a URL.  When it returns false the URLs are
    as they were; when it returns true it has appended the URLs of some of
    the arguments, at most one for each argument after the program name;
    so a URL in the result was there before or comes from an argument. *)
Theorem Parse_appends_urls (tr absoluteFilePath : string -> string)
    (a : CommandlineOptions) :
  exists b a' out,
    Parse tr absoluteFilePath a = Some (b, a', out) /\
    (b = false -> urls_ a' = urls_ a) /\
    (b = true ->
     exists extra,
       urls_ a' = urls_ a ++ map (url_of_argument absoluteFilePath) extra /\
       (List.length extra <= List.length (argv_ a) - 1)%nat /\
       incl extra (argv_ a)).
Proof.
  destruct (Parse_result tr absoluteFilePath a)
    as (b & a' & out & E & _ & _ & _ & F & T).
  exists b, a', out. auto.
Qed.

(** X4: whatever the arguments, after [Parse] on a newly constructed
    object the player action and the URL list action are values of their
    enumerations, the volume modifier is 0, 4 or -4, and the volume, the
    seek position and the track are 32-bit integers. *)
Theorem Parse_in_range (tr absoluteFilePath : string -> string)
    (v : list string) :
  exists b a' out,
    Parse tr absoluteFilePath (CommandlineOptions_new v) = Some (b, a', out) /\
    in_range a'.
Proof.
  destruct (Parse_result tr absoluteFilePath (CommandlineOptions_new v))
    as (b & a' & out & E & _ & R & _).
  exists b, a', out. split; [exact E |]. apply R. apply in_range_new.
Qed.

(** X5: [Parse] only reorders the argument vector it shares with its
    caller: afterwards, whether it returned true or false, [argv_] holds
    the same arguments as before, each as many times. *)
Theorem Parse_permutes_argv (tr absoluteFilePath : string -> string)
    (a : CommandlineOptions) :
  exists b a' out,
    Parse tr absoluteFilePath a = Some (b, a', out) /\
    Permutation (argv_ a') (argv_ a).
Proof.
  destruct (Parse_result tr absoluteFilePath a)
    as (b & a' & out & E & P & _).
  exists b, a', out. auto.
Qed.

(** ** More on the wire format *)

Local Open Scope Z_scope.

Lemma Load_Serialize_app (o b : CommandlineOptions) (t : list byte) :
  representable o -> Load (Serialize o ++ t) b = set_argv_ (argv_ b) o.
Proof.
  intros [H1 H2 H3 H4 H5 H6 H7 H8].
  unfold Load, Serialize, stream_in, stream_out.
  rewrite <- !app_assoc.
  rewrite !bind_read_qint32 by assumption.
  rewrite bind_read_bool.
  rewrite bind_read_QList by assumption.
  reflexivity.
Qed.

Lemma set_argv_same (a : CommandlineOptions) : set_argv_ (argv_ a) a = a.
Proof. destruct a; reflexivity. Qed.

Lemma Serialize_set_argv (v : list string) (o : CommandlineOptions) :
  Serialize (set_argv_ v o) = Serialize o.
Proof. reflexivity. Qed.

(** X6: [Load] reads one encoding and ignores what follows it: bytes after
    a serialized object do not change any field that is loaded. *)
Theorem Load_ignores_trailing_bytes (o b : CommandlineOptions)
    (t : list byte) :
  representable o ->
  Load (Serialize o ++ t) b = Load (Serialize o) b.
Proof.
  intros H. rewrite Load_Serialize_app by assumption.
  rewrite <- (app_nil_r (Serialize o)).
  rewrite Load_Serialize_app by assumption. reflexivity.
Qed.

Lemma Load_ignores_trailing_bytes_witness :
  let o := mkOptions ["clementine"] UrlList_Load Player_Play (-1) 4 (-1) 120
             true [QUrl_of_QString "http://example.com/x"] in
  representable o /\
  Load (Serialize o ++ [x2a; x00; xff]) (CommandlineOptions_new [])
  = Load (Serialize o) (CommandlineOptions_new []).
Proof.
  intros o.
  assert (R : representable o).
  { constructor;
      try (split; [apply Z.leb_le | apply Z.ltb_lt]; reflexivity);
      try (apply Z.ltb_lt; reflexivity).
    repeat constructor; apply Z.ltb_lt; reflexivity. }
  split; [exact R |].
  exact (Load_ignores_trailing_bytes o (CommandlineOptions_new [])
           [x2a; x00; xff] R).
Defined.

(** X7: no encoding is the beginning of another: if two serialized
    objects, each followed by any bytes, give the same stream, the objects
    have the same fields and the bytes that follow are the same.  Different
    options never serialize to the same bytes. *)
Theorem Serialize_prefix_free (o1 o2 : CommandlineOptions)
    (t1 t2 : list byte) :
  representable o1 -> representable o2 ->
  Serialize o1 ++ t1 = Serialize o2 ++ t2 ->
  set_argv_ (argv_ o2) o1 = o2 /\ t1 = t2.
Proof.
  intros R1 R2 E.
  assert (F : set_argv_ (argv_ o2) o1 = o2).
  { pose proof (Load_Serialize_app o1 o2 t1 R1) as L1.
    pose proof (Load_Serialize_app o2 o2 t2 R2) as L2.
    rewrite E, L2 in L1. rewrite <- L1. apply set_argv_same. }
  split; [exact F |].
  rewrite <- F, Serialize_set_argv in E.
  exact (app_inv_head _ _ _ E).
Qed.

Lemma Serialize_prefix_free_witness :
  let o := mkOptions ["a"] UrlList_Append Player_Stop 30 0 (-1) (-1) false [] in
  let o' := mkOptions ["b"; "c"] UrlList_Append Player_Stop 30 0 (-1) (-1)
              false [] in
  representable o /\ representable o' /\
  Serialize o ++ [x01] = Serialize o' ++ [x01] /\
  set_argv_ (argv_ o') o = o'.
Proof.
  intros o o'.
  assert (R : representable o).
  { constructor;
      try (split; [apply Z.leb_le | apply Z.ltb_lt]; reflexivity);
      try (apply Z.ltb_lt; reflexivity).
    constructor. }
  assert (R' : representable o').
  { constructor;
      try (split; [apply Z.leb_le | apply Z.ltb_lt]; reflexivity);
      try (apply Z.ltb_lt; reflexivity).
    constructor. }
  split; [exact R |]. split; [exact R' |]. split; [reflexivity |].
  exact (proj1 (Serialize_prefix_free o o' [x01] [x01] R R' eq_refl)).
Defined.

Lemma length_write_QUrl (u : QUrl) :
  List.length (write_QUrl u) = QUrl_size u.
Proof.
  unfold write_QUrl, write_QByteArray, QUrl_size.
  destruct (toEncoded u) as [| c s] eqn:E; [reflexivity |].
  rewrite length_app, length_list_byte_of_string. reflexivity.
Qed.

(** X8: the size of the encoding: 29 bytes for the seven fixed fields and
    the number of URLs, then for every URL four bytes and its characters. *)
Theorem Serialize_length (a : CommandlineOptions) :
  List.length (Serialize a)
  = (29 + list_sum (map QUrl_size (urls_ a)))%nat.
Proof.
  unfold Serialize, stream_out, write_QList.
  cbn [write_qint32 write_bool write_quint32 app List.length Nat.add].
  do 29 f_equal.
  induction (urls_ a) as [| u l IH]; [reflexivity |].
  cbn [map List.concat list_sum]. rewrite length_app, IH, length_write_QUrl.
  reflexivity.
Qed.

(** X9: [Load] does not fail on a stream that is cut short: a field the
    stream does not reach is read as zero.  With fewer than twelve bytes the
    volume is 0, not the sentinel -1, so the object loaded is not empty. *)
Theorem Load_short_stream (s : list byte) (a : CommandlineOptions) :
  (List.length s < 12)%nat ->
  set_volume_ (Load s a) = 0 /\
  seek_to_ (Load s a) = 0 /\
  play_track_at_ (Load s a) = 0 /\
  show_osd_ (Load s a) = false /\
  urls_ (Load s a) = [] /\
  is_empty (Load s a) = false.
Proof.
  intros H.
  assert (E : exists pa ula,
             Load s a = mkOptions (argv_ a) ula pa 0 0 0 0 false []).
  { do 12 (destruct s as [| ? s];
           [eexists _, _; reflexivity |]).
    cbn [List.length] in H. lia. }
  destruct E as (pa & ula & ->). cbn.
  repeat split. unfold is_empty. cbn.
  now rewrite !andb_false_r.
Qed.

Lemma Load_short_stream_witness :
  (List.length (@nil byte) < 12)%nat /\
  set_volume_ (Load [] (CommandlineOptions_new ["clementine"])) = 0 /\
  is_empty (Load [] (CommandlineOptions_new ["clementine"])) = false.
Proof.
  assert (H : (List.length (@nil byte) < 12)%nat) by (cbn; lia).
  split; [exact H |].
  destruct (Load_short_stream [] (CommandlineOptions_new ["clementine"]) H)
    as (V & _ & _ & _ & _ & E).
  split; [exact V | exact E].
Defined.

(** ** From the command line to the other instance *)

Lemma in_range_representable (a : CommandlineOptions) :
  in_range a -> fits (List.length (urls_ a)) -> Forall url_fits (urls_ a) ->
  representable a.
Proof.
  intros [R1 R2 R3 R4 R5 R6] F U.
  unfold Player_None, Player_Next, UrlList_Append, UrlList_Load in *.
  constructor; try assumption; unfold is_qint32; lia.
Qed.

(** X10: what [Parse] makes of a command line survives the transfer to
    another instance: when the argument vector has fewer than 2^31 elements
    and the URL of every argument fewer than 2^31 characters, [Load] of
    [Serialize] of the parsed options gives back every field. *)
Theorem Parse_then_Load (tr absoluteFilePath : string -> string)
    (v : list string) :
  fits (List.length v) ->
  (forall s, In s v -> url_fits (url_of_argument absoluteFilePath s)) ->
  exists b a' out,
    Parse tr absoluteFilePath (CommandlineOptions_new v) = Some (b, a', out) /\
    forall target,
      Load (Serialize a') target = set_argv_ (argv_ target) a'.
Proof.
  intros Hv Hu.
  destruct (Parse_result tr absoluteFilePath (CommandlineOptions_new v))
    as (b & a' & out & E & _ & R & _ & F & T).
  exists b, a', out. split; [exact E |].
  intros target. apply Load_Serialize.
  apply in_range_representable.
  - apply R, in_range_new.
  - destruct b.
    + destruct (T eq_refl) as (extra & U & L & _). rewrite U.
      cbn [urls_ CommandlineOptions_new app argv_] in *.
      rewrite length_map. unfold fits in *. lia.
    + rewrite (F eq_refl). cbn. unfold fits. lia.
  - destruct b.
    + destruct (T eq_refl) as (extra & U & _ & I). rewrite U.
      cbn [urls_ CommandlineOptions_new app argv_] in *.
      apply Forall_map, Forall_forall. intros s Hs. apply Hu, I, Hs.
    + rewrite (F eq_refl). constructor.
Qed.

Lemma Parse_then_Load_witness :
  let v := ["clementine"; "-v"; "30"; "x.mp3"] in
  fits (List.length v) /\
  (forall s, In s v ->
     url_fits (url_of_argument (fun p => ("/home/" ++ p)%string) s)) /\
  exists b a' out,
    Parse (fun s => s) (fun p => ("/home/" ++ p)%string)
      (CommandlineOptions_new v) = Some (b, a', out) /\
    Load (Serialize a') (CommandlineOptions_new [])
    = set_argv_ [] a'.
Proof.
  intros v.
  assert (Hv : fits (List.length v)) by (apply Z.ltb_lt; reflexivity).
  assert (Hu : forall s, In s v ->
                 url_fits (url_of_argument (fun p => ("/home/" ++ p)%string) s)).
  { intros s [<- | [<- | [<- | [<- | []]]]]; apply Z.ltb_lt; reflexivity. }
  split; [exact Hv |]. split; [exact Hu |].
  destruct (Parse_then_Load (fun s => s) (fun p => ("/home/" ++ p)%string)
              v Hv Hu) as (b & a' & out & E & L).
  exists b, a', out. split; [exact E |].
  exact (L (CommandlineOptions_new [])).
Defined.

(** ** More on the flags *)

(** X11: when no argument is a flag, [Parse] returns true, every argument
    becomes a URL, in order: itself when it contains "://", the local file
    of its absolute path otherwise; no other field changes, and the object
    is empty exactly when there was no argument at all. *)
Theorem operands_become_urls (tr absoluteFilePath : string -> string)
    (prog : string) (ops : list string) :
  forallb NONOPTION_P ops = true ->
  let a := CommandlineOptions_new (prog :: ops) in
  exists a',
    Parse tr absoluteFilePath a = Some (true, a', []) /\
    urls_ a' = map (url_of_argument absoluteFilePath) ops /\
    same_fields a' a /\
    (is_empty a' = true <-> ops = []).
Proof.
  intros Ho a. subst a.
  rewrite (Parse_operands tr absoluteFilePath prog ops Ho).
  eexists. split; [reflexivity |]. split; [reflexivity |].
  split; [intros fd; destruct fd; reflexivity |].
  destruct ops; cbn; split; congruence.
Qed.

Lemma operands_become_urls_witness :
  forallb NONOPTION_P ["song.mp3"; "-"; "http://example.com/x"] = true /\
  exists a',
    Parse (fun s => s) (fun p => ("/home/" ++ p)%string)
      (CommandlineOptions_new
         ["clementine"; "song.mp3"; "-"; "http://example.com/x"])
    = Some (true, a', []) /\
    urls_ a' = [QUrl_fromLocalFile "/home/song.mp3";
                QUrl_fromLocalFile "/home/-";
                QUrl_of_QString "http://example.com/x"].
Proof.
  split; [reflexivity |].
  destruct (operands_become_urls (fun s => s)
              (fun p => ("/home/" ++ p)%string) "clementine"
              ["song.mp3"; "-"; "http://example.com/x"] eq_refl)
    as (a' & E & U & _).
  exists a'. split; [exact E | exact U].
Defined.

Lemma last_setting_found (fd : field) (ws : list word) (f : flag) :
  In f (flags ws) -> field_of f = fd ->
  exists g, last_setting fd ws = Some g /\ field_of g = fd.
Proof.
  intros Hin Hf. unfold last_setting.
  destruct (find (fun f0 => field_eqb (field_of f0) fd) (rev (flags ws)))
    as [g |] eqn:E.
  - apply find_some in E. destruct E as [_ E].
    exists g. split; [reflexivity |].
    destruct (field_eqb_spec (field_of g) fd); [assumption | discriminate].
  - apply find_none with (x := f) in E; [| now apply in_rev in Hin].
    destruct (field_eqb_spec (field_of f) fd); [discriminate | contradiction].
Qed.

Lemma sticky_off_default (g : flag) (a : CommandlineOptions) (v : list string) :
  sticky (field_of g) = true ->
  field_value (field_of g) (effect a g)
  <> field_value (field_of g) (CommandlineOptions_new v).
Proof. destruct g; intros H; try discriminate H; cbn; discriminate. Qed.

(** X12: no flag puts the player action back to None, the volume modifier
    back to 0 or the OSD flag back to false: once a flag that sets one of
    them is on a command line of flags and operands, the field is off its
    default after [Parse], whatever comes later, and the object is not
    empty. *)
Theorem sticky_flag_makes_nonempty (tr absoluteFilePath : string -> string)
    (prog : string) (ws : list word) (f : flag) :
  forallb well_formed ws = true ->
  In f (flags ws) ->
  sticky (field_of f) = true ->
  exists a',
    Parse tr absoluteFilePath (CommandlineOptions_new (prog :: command_line ws))
    = Some (true, a', []) /\
    field_value (field_of f) a'
    <> field_value (field_of f) (CommandlineOptions_new []) /\
    is_empty a' = false.
Proof.
  intros Hw Hin Hs.
  destruct (Parse_words tr absoluteFilePath prog ws Hw) as (a' & E & F).
  exists a'. split; [exact E |].
  destruct (last_setting_found (field_of f) ws f Hin eq_refl) as (g & L & G).
  assert (N : field_value (field_of f) a'
              <> field_value (field_of f) (CommandlineOptions_new [])).
  { rewrite (F (field_of f)), effects_last_wins. unfold last_wins.
    rewrite L, <- G. apply sticky_off_default. rewrite G. exact Hs. }
  split; [exact N |].
  apply is_empty_deviates. unfold deviates.
  destruct (field_of f); try discriminate Hs; cbn in N.
  - left. exact N.
  - right. right. left. exact N.
  - do 5 right. left. destruct (show_osd_ a'); [discriminate | contradiction].
Qed.

Lemma sticky_flag_makes_nonempty_witness :
  let ws := [Flag Long F_volume_up; Flag Short (F_volume "x"); Flag Short F_append] in
  forallb well_formed ws = true /\
  In F_volume_up (flags ws) /\
  sticky (field_of F_volume_up) = true /\
  exists a',
    Parse (fun s => s) (fun s => s)
      (CommandlineOptions_new ["clementine"; "--volume-up"; "-v"; "x"; "-a"])
    = Some (true, a', []) /\
    is_empty a' = false.
Proof.
  intros ws.
  assert (Hin : In F_volume_up (flags ws)) by (left; reflexivity).
  split; [reflexivity |]. split; [exact Hin |]. split; [reflexivity |].
  destruct (sticky_flag_makes_nonempty (fun s => s) (fun s => s) "clementine"
              ws F_volume_up eq_refl Hin eq_refl) as (a' & E & _ & N).
  exists a'. split; [exact E | exact N].
Defined.

Lemma toInt_or_sentinel_ok (v : string) (n : Z) :
  toInt (Some v) = (n, true) -> toInt_or_sentinel (Some v) = n.
Proof. unfold toInt_or_sentinel. intros ->. reflexivity. Qed.

(** X13: a number that [toInt] accepts is stored as it is: the argument of
    --volume, --seek-to or --play-track is not checked against any range
    but that of [int], so negative values other than -1 and volumes above
    100 reach the field. *)
Theorem accepted_number_is_stored
    (tr absoluteFilePath : string -> string) (prog : string)
    (ws1 ws2 : list word) (sp : spelling) (v : string) (n : Z) :
  forallb well_formed ws1 = true ->
  forallb well_formed ws2 = true ->
  toInt (Some v) = (n, true) ->
  is_qint32 n /\
  (let a := CommandlineOptions_new
              (prog :: command_line (ws1 ++ Flag sp (F_volume v) :: ws2)) in
   exists a',
     Parse tr absoluteFilePath a = Some (true, a', []) /\
     same_fields a' (effects ws2 (set_set_volume n (effects ws1 a)))) /\
  (let a := CommandlineOptions_new
              (prog :: command_line (ws1 ++ Flag sp (F_seek_to v) :: ws2)) in
   exists a',
     Parse tr absoluteFilePath a = Some (true, a', []) /\
     same_fields a' (effects ws2 (set_seek_to n (effects ws1 a)))) /\
  (let a := CommandlineOptions_new
              (prog :: command_line (ws1 ++ Flag sp (F_play_track v) :: ws2)) in
   exists a',
     Parse tr absoluteFilePath a = Some (true, a', []) /\
     same_fields a' (effects ws2 (set_play_track_at n (effects ws1 a)))).
Proof.
  intros H1 H2 H. split.
  { pose proof (toInt_range (Some v)) as R. rewrite H in R. exact R. }
  apply toInt_or_sentinel_ok in H.
  repeat split; intros a;
    match goal with
    | a := CommandlineOptions_new (prog :: command_line ?ws) |- _ =>
        destruct (Parse_words tr absoluteFilePath prog ws) as (a' & E & F);
        [ rewrite forallb_app; cbn [forallb well_formed];
          rewrite H1, H2; reflexivity |];
        exists a'; split; [exact E |];
        intros fd; rewrite (F fd);
        change (?x :: ws2) with ([x] ++ ws2);
        rewrite !effects_app; unfold effects at 2;
        cbn [flags fold_left effect]; rewrite H; reflexivity
    end.
Qed.

Lemma accepted_number_is_stored_witness :
  forallb well_formed [] = true /\
  toInt (Some "-5") = (-5, true) /\
  exists a',
    Parse (fun s => s) (fun s => s)
      (CommandlineOptions_new ["clementine"; "--volume"; "-5"])
    = Some (true, a', []) /\ set_volume_ a' = -5.
Proof.
  split; [reflexivity |]. split; [reflexivity |].
  destruct (proj1 (proj2 (accepted_number_is_stored (fun s => s) (fun s => s)
                     "clementine" [] [] Long "-5" (-5)
                     eq_refl eq_refl eq_refl)))
    as (a' & E & F).
  exists a'. split; [exact E | exact (F set_volume)].
Defined.

Lemma end_of_options_double_dash (d : getopt_data) (rest : list string) :
  at_words d ("--"%string :: rest) ->
  optind (end_of_options d) = argc (end_of_options d).
Proof.
  intros [_ _ _ _ H].
  destruct (skipn_cons _ _ _ _ ""%string H) as (A1 & A2 & _).
  unfold end_of_options.
  destruct (negb (optind d =? argc d)%nat
            && (arg_at d (optind d) =? "--")%string)
    eqn:C; [reflexivity |].
  unfold arg_at in C. rewrite A1 in C.
  destruct (Nat.eqb_spec (optind d) (argc d)) as [Eq |];
    [unfold argc in Eq; lia | discriminate C].
Qed.

Lemma getopt_long_double_dash (d : getopt_data) (li : nat)
    (ops rest : list string) :
  at_words d (ops ++ "--"%string :: rest) ->
  forallb NONOPTION_P ops = true ->
  exists d', getopt_long kOptstring kOptions d li = (-1, d', li).
Proof.
  intros H Ho.
  destruct (permute_words d ops ("--"%string :: rest) H Ho eq_refl) as [P _].
  destruct H as [_ _ _ H4 H5].
  unfold getopt_long.
  destruct (Nat.ltb_spec (argc d) 1); [eauto |].
  cbn [nextchar set_optarg]. rewrite H4.
  rewrite (end_of_options_double_dash _ _ P), Nat.eqb_refl. eauto.
Qed.

(** X14: "--" ends the flags: after flags and operands, whatever follows
    a "--" is not looked at as a flag; [Parse] returns true and the fields
    hold what the flags before the "--" set. *)
Theorem double_dash_ends_flags (tr absoluteFilePath : string -> string)
    (prog : string) (ws : list word) (rest : list string) :
  forallb well_formed ws = true ->
  let a := CommandlineOptions_new
             (prog :: command_line ws ++ "--"%string :: rest) in
  exists a',
    Parse tr absoluteFilePath a = Some (true, a', []) /\
    same_fields a' (effects ws a).
Proof.
  intros Hw a.
  pose proof (at_words_initialize prog
                (command_line ws ++ "--"%string :: rest)) as H.
  destruct (Parse_loop_words tr ws Hw _ _ 0%nat a _ H eq_refl)
    as (d & li & ops & Ho & H1 & L).
  destruct (getopt_long_double_dash d li ops rest H1 Ho) as (d' & G).
  assert (E : Parse_loop tr (List.length (flags ws) + 1)
                (getopt_initialize (argv_ a)) 0 a
              = Some (Break d' li (effects ws a))).
  { cbn [argv_ a CommandlineOptions_new]. rewrite L. cbn [Parse_loop].
    rewrite G. reflexivity. }
  rewrite (Parse_of_loop tr absoluteFilePath _ _ _ E).
  eexists. split; [reflexivity | apply same_fields_result].
Qed.

Lemma double_dash_ends_flags_witness :
  forallb well_formed [Flag Short F_play] = true /\
  exists a',
    Parse (fun s => s) (fun s => s)
      (CommandlineOptions_new ["clementine"; "-p"; "--"; "-s"; "--bogus"])
    = Some (true, a', []) /\ player_action_ a' = Player_Play.
Proof.
  split; [reflexivity |].
  destruct (double_dash_ends_flags (fun s => s) (fun s => s) "clementine"
              [Flag Short F_play] ["-s"; "--bogus"] eq_refl)
    as (a' & E & F).
  exists a'. split; [exact E | exact (F player_action)].
Defined.

(** ** Shortened long names *)

Local Open Scope nat_scope.

Lemma prefix_prefixes (s n : string) :
  prefix n s = true -> In n (prefixes s).
Proof.
  revert n. induction s as [| b s IH]; intros [| a n] H.
  - left. reflexivity.
  - discriminate H.
  - left. reflexivity.
  - cbn [prefix] in H. destruct (ascii_dec a b) as [-> |]; [| discriminate H].
    right. apply in_map, IH, H.
Qed.

Ltac each_prefix H :=
  cbn [prefixes map In] in H;
  repeat (destruct H as [H | H]; [symmetry in H |]);
  [ .. | contradiction H].

(** A shortened name is looked up as the option it shortens. *)
Lemma lookup_abbreviates (n : string) (f : flag) :
  abbreviates n f = true ->
  n <> ""%string /\
  nameend n = (n, None) /\
  exists i,
    lookup n
    = (Some (i, mkOption (long_name f)
                  (match argument f with
                   | Some _ => required_argument
                   | None => no_argument
                   end) (code f)), false).
Proof.
  unfold abbreviates. intros H.
  apply andb_true_iff in H. destruct H as [H H3].
  apply andb_true_iff in H. destruct H as [H1 H2].
  apply prefix_prefixes in H2.
  destruct f; cbn [long_name] in H2, H3; each_prefix H2; subst n;
    first [ discriminate H1
          | discriminate H3
          | split; [discriminate |]; split; [reflexivity |];
            eexists; vm_compute; reflexivity ].
Qed.

Lemma getopt_long_abbreviated (n : string) (f : flag) (d : getopt_data)
    (li : nat) (ops rest : list string) :
  at_words d (ops ++ abbreviated n f ++ rest) ->
  forallb NONOPTION_P ops = true ->
  abbreviates n f = true ->
  exists d' li',
    getopt_long kOptstring kOptions d li = (code f, d', li') /\
    optarg d' = argument f /\
    at_words d' rest.
Proof.
  intros H Ho Ha.
  destruct (lookup_abbreviates n f Ha) as (Hn & Ne & i & L).
  unfold abbreviated in H. cbn [String.append app] in H.
  destruct (getopt_long_at_word d li ops _ _ H Ho eq_refl)
    as (d1 & [K1 K2 K3 K4 K5] & O1 & G).
  { intros E. inversion E. contradiction. }
  rewrite G. clear G.
  destruct d1 as [v oi oa nc fn ln].
  simpl_data_in K1; simpl_data_in K2; simpl_data_in K3; simpl_data_in K4;
    simpl_data_in K5; simpl_data_in O1. subst oa nc.
  unfold process_long_option. cbn [nextchar set_nextchar]. rewrite Ne.
  fold (lookup n). rewrite L.
  destruct (skipn_cons _ _ _ _ ""%string K5) as (A1 & A2 & A3).
  destruct (argument f) as [arg |].
  - cbn [app] in A3.
    destruct (skipn_cons _ _ _ _ ""%string A3) as (B1 & B2 & B3).
    assert (C1 : (S oi <? List.length v) = true)
      by (apply Nat.ltb_lt; assumption).
    cbn [has_arg val]. simpl_data.
    cbn [Z.eqb required_argument no_argument Pos.eqb]. rewrite C1, B1.
    eexists _, _. split; [reflexivity |]. split; [reflexivity |].
    constructor; simpl_data; try lia; try assumption; reflexivity.
  - cbn [app] in A3. cbn [has_arg val]. simpl_data.
    cbn [Z.eqb required_argument no_argument Pos.eqb].
    eexists _, _. split; [reflexivity |]. split; [reflexivity |].
    constructor; simpl_data; try lia; try assumption; reflexivity.
Qed.

(** X15: a long name may be shortened as long as no other option name
    begins the same way: such a word acts as the flag written in full, in
    the middle of any flags and operands. *)
Theorem shortened_name_is_the_flag (tr absoluteFilePath : string -> string)
    (prog : string) (ws1 ws2 : list word) (n : string) (f : flag) :
  forallb well_formed ws1 = true ->
  forallb well_formed ws2 = true ->
  abbreviates n f = true ->
  let a := CommandlineOptions_new
             (prog :: command_line ws1 ++ abbreviated n f ++ command_line ws2) in
  exists a',
    Parse tr absoluteFilePath a = Some (true, a', []) /\
    same_fields a' (effects ws2 (effect (effects ws1 a) f)).
Proof.
  intros H1 H2 Ha a.
  pose proof (at_words_initialize prog
                (command_line ws1 ++ abbreviated n f ++ command_line ws2)) as H.
  destruct (Parse_loop_words tr ws1 H1 _ _ 0 a _ H eq_refl)
    as (d1 & li1 & ops1 & Ho1 & W1 & L1).
  destruct (getopt_long_abbreviated n f d1 li1 ops1 _ W1 Ho1 Ha)
    as (d2 & li2 & G & Oa & W2).
  rewrite <- (app_nil_r (command_line ws2)) in W2.
  destruct (Parse_loop_words tr ws2 H2 [] d2 li2
              (effect (effects ws1 a) f) [] W2 eq_refl)
    as (d3 & li3 & ops3 & Ho3 & W3 & L3).
  rewrite app_nil_r in W3.
  destruct (getopt_long_at_end d3 li3 ops3 W3 Ho3) as (d4 & G4 & _).
  assert (E : Parse_loop tr
                (List.length (flags ws1) + S (List.length (flags ws2) + 1))
                (getopt_initialize (argv_ a)) 0 a
              = Some (Break d4 li3
                        (effects ws2 (effect (effects ws1 a) f)))).
  { cbn [argv_ a CommandlineOptions_new]. rewrite L1. cbn [Parse_loop].
    rewrite G, code_not_end, Oa, Parse_switch_code, L3. cbn [Parse_loop].
    rewrite G4. reflexivity. }
  rewrite (Parse_of_loop tr absoluteFilePath _ _ _ E).
  eexists. split; [reflexivity | apply same_fields_result].
Qed.

Lemma shortened_name_is_the_flag_witness :
  forallb well_formed [Flag Short F_play] = true /\
  forallb well_formed [Operand "a.mp3"] = true /\
  abbreviates "vo" (F_volume "40") = false /\
  abbreviates "volume-u" F_volume_up = true /\
  abbreviates "see" (F_seek_to "40") = true /\
  exists a',
    Parse (fun s => s) (fun s => s)
      (CommandlineOptions_new ["clementine"; "-p"; "--see"; "40"; "a.mp3"])
    = Some (true, a', []) /\ seek_to_ a' = 40%Z.
Proof.
  split; [reflexivity |]. split; [reflexivity |]. split; [reflexivity |].
  split; [reflexivity |]. split; [reflexivity |].
  destruct (shortened_name_is_the_flag (fun s => s) (fun s => s) "clementine"
              [Flag Short F_play] [Operand "a.mp3"] "see" (F_seek_to "40")
              eq_refl eq_refl eq_refl) as (a' & E & F).
  exists a'. split; [exact E | exact (F seek_to)].
Defined.

Lemma lookup_ambiguous (n : string) :
  ambiguous n = true ->
  n <> ""%string /\ nameend n = (n, None) /\ exists pf, lookup n = (pf, true).
Proof.
  unfold ambiguous. intros H.
  apply andb_true_iff in H. destruct H as [H H3].
  apply andb_true_iff in H. destruct H as [H1 H2].
  assert (P : exists p, In p kOptions /\ prefix n (name p) = true).
  { destruct (filter (fun p => prefix n (name p)) kOptions) as [| p l] eqn:E;
      [discriminate H3 |].
    exists p.
    apply (proj1 (filter_In (fun p => prefix n (name p)) p kOptions)).
    rewrite E. left. reflexivity. }
  destruct P as (p & Hp & Hn).
  apply prefix_prefixes in Hn.
  unfold kOptions in Hp. cbn [In] in Hp.
  repeat (destruct Hp as [Hp | Hp]; [symmetry in Hp |]);
    [ .. | contradiction Hp];
    subst p; cbn [name] in Hn; each_prefix Hn; subst n;
    first [ discriminate H1
          | discriminate H2
          | discriminate H3
          | split; [discriminate |]; split; [reflexivity |];
            eexists; vm_compute; reflexivity ].
Qed.

(** X16: a long name shortened so far that two option names or more begin
    with it is refused: [Parse] stops at that word and returns false with
    nothing written for the caller, the fields as the flags before it left
    them. *)
Theorem ambiguous_name_returns_false (tr absoluteFilePath : string -> string)
    (prog : string) (ws : list word) (n : string) (more : list string) :
  forallb well_formed ws = true ->
  ambiguous n = true ->
  let a := CommandlineOptions_new
             (prog :: command_line ws ++ ("--" ++ n)%string :: more) in
  exists a',
    Parse tr absoluteFilePath a = Some (false, a', []) /\
    same_fields a' (effects ws a).
Proof.
  intros Hw Ha.
  destruct (lookup_ambiguous n Ha) as (Hn & Ne & pf & L).
  apply (Parse_aborts tr absoluteFilePath prog ws _ QUESTION []);
    [assumption | | discriminate | reflexivity].
  intros d li ops H Ho. cbn [String.append] in H.
  destruct (getopt_long_at_dash d li ops "-" n more H Ho (fun _ => Hn))
    as [d1 G].
  rewrite G. cbn [Ascii.eqb Bool.eqb].
  unfold process_long_option. cbn [nextchar set_nextchar]. rewrite Ne.
  fold (lookup n). rewrite L.
  eexists _, _. reflexivity.
Qed.

Lemma ambiguous_name_returns_false_witness :
  forallb well_formed [Flag Short F_play] = true /\
  ambiguous "vol" = true /\
  ambiguous "p" = true /\
  ambiguous "volume" = false /\
  exists a',
    Parse (fun s => s) (fun s => s)
      (CommandlineOptions_new ["clementine"; "-p"; "--vol"; "40"])
    = Some (false, a', []) /\ player_action_ a' = Player_Play.
Proof.
  split; [reflexivity |]. split; [reflexivity |]. split; [reflexivity |].
  split; [reflexivity |].
  destruct (ambiguous_name_returns_false (fun s => s) (fun s => s)
              "clementine" [Flag Short F_play] "vol" ["40"] eq_refl eq_refl)
    as (a' & E & F).
  exists a'. split; [exact E | exact (F player_action)].
Defined.

(** ** Clusters of letters *)

(** Where the scanner stands once a letter of a cluster is read: inside
    the cluster while letters are left, after it otherwise. *)
Definition after_letter (d : getopt_data) (r : string) (rest : list string)
  : Prop :=
  optarg d = None /\
  match r with
  | EmptyString => at_words d rest
  | _ => in_cluster d r rest
  end.

Lemma clusterable_letter (f : flag) :
  clusterable f = true ->
  exists c,
    short_name f = Some c /\ argument f = None /\ c <> "-"%char /\
    forall r d,
      getopt_short kOptstring c r d
      = (code f,
         match r with
         | EmptyString => set_optind (S (optind d)) (set_nextchar r d)
         | _ => set_nextchar r d
         end).
Proof.
  destruct f; intros H; try discriminate H;
    (eexists; split; [reflexivity |]; split; [reflexivity |];
     split; [discriminate |]; intros r d; destruct r; reflexivity).
Qed.

Lemma word_of_letters (c : ascii) (r : string) (d : getopt_data) (li : nat) :
  c <> "-"%char ->
  match String "-" (String c r) with
  | String _ (String "-" nm) =>
      process_long_option kOptions (set_nextchar nm d) li
  | String _ (String c r) =>
      let (x, d') := getopt_short kOptstring c r d in (x, d', li)
  | _ => (QUESTION, d, li)
  end
  = let (x, d') := getopt_short kOptstring c r d in (x, d', li).
Proof.
  intros H. destruct c as [[] [] [] [] [] [] [] []];
    first [reflexivity | contradiction H; reflexivity].
Qed.

Lemma after_letter_intro (d : getopt_data) (r : string)
    (rest : list string) :
  first_nonopt d <= last_nonopt d -> last_nonopt d <= optind d ->
  optind d < argc d -> optarg d = None ->
  skipn (S (optind d)) (argv d) = rest ->
  after_letter
    match r with
    | EmptyString => set_optind (S (optind d)) (set_nextchar r d)
    | _ => set_nextchar r d
    end r rest.
Proof.
  intros H1 H2 H3 H4 H5. destruct d as [v oi oa nc fn ln].
  simpl_data_in H1; simpl_data_in H2; simpl_data_in H3; simpl_data_in H4;
    simpl_data_in H5.
  destruct r; (split; [assumption |]);
    constructor; simpl_data; try lia; try assumption; reflexivity.
Qed.

(** The first letter of a cluster, read after operands. *)
Lemma getopt_long_cluster (f : flag) (fs : list flag) (d : getopt_data)
    (li : nat) (ops rest : list string) :
  at_words d (ops ++ cluster (f :: fs) :: rest) ->
  forallb NONOPTION_P ops = true ->
  clusterable f = true ->
  exists d',
    getopt_long kOptstring kOptions d li = (code f, d', li) /\
    after_letter d' (letters fs) rest.
Proof.
  intros H Ho Hf.
  destruct (clusterable_letter f Hf) as (c & Sn & Ar & Hc & Gs).
  unfold cluster in H. cbn [letters] in H. rewrite Sn in H.
  destruct (getopt_long_at_word d li ops _ _ H Ho) as (d1 & K & O1 & G).
  { destruct c as [[] [] [] [] [] [] [] []]; reflexivity. }
  { intros E. inversion E. contradiction. }
  rewrite G, (word_of_letters c _ d1 li Hc), Gs.
  eexists. split; [reflexivity |].
  destruct K as [K1 K2 K3 K4 K5].
  destruct (skipn_cons _ _ _ _ ""%string K5) as (A1 & A2 & A3).
  apply after_letter_intro; assumption.
Qed.

(** A later letter of the cluster. *)
Lemma getopt_long_in_cluster (f : flag) (r : string) (d : getopt_data)
    (li : nat) (rest : list string) (c : ascii) :
  in_cluster d (String c r) rest ->
  clusterable f = true -> short_name f = Some c ->
  exists d',
    getopt_long kOptstring kOptions d li = (code f, d', li) /\
    after_letter d' r rest.
Proof.
  intros [K1 K2 K3 K4 K5] Hf Sn.
  destruct (clusterable_letter f Hf) as (c' & Sn' & Ar & Hc & Gs).
  rewrite Sn in Sn'. inversion Sn'. subst c'.
  unfold getopt_long.
  destruct (Nat.ltb_spec (argc d) 1); [lia |].
  destruct d as [v oi oa nc fn ln].
  simpl_data_in K1; simpl_data_in K2; simpl_data_in K3; simpl_data_in K4;
    simpl_data_in K5. subst nc.
  cbn [nextchar set_optarg]. rewrite Gs.
  eexists. split; [reflexivity |].
  apply after_letter_intro; simpl_data; try assumption; reflexivity.
Qed.

Lemma Parse_loop_cluster (tr : string -> string) (fs : list flag) :
  forallb clusterable fs = true ->
  forall (d : getopt_data) (li : nat) (a : CommandlineOptions)
         (rest : list string),
    after_letter d (letters fs) rest ->
    exists d',
      at_words d' rest /\
      forall fuel,
        Parse_loop tr (List.length fs + fuel) d li a
        = Parse_loop tr fuel d' li (fold_left effect fs a).
Proof.
  induction fs as [| f fs IH]; intros Hc d li a rest [Ho H].
  - exists d. split; [exact H | reflexivity].
  - cbn [forallb] in Hc. apply andb_true_iff in Hc. destruct Hc as [Hf Hc].
    destruct (clusterable_letter f Hf) as (c & Sn & Ar & _ & _).
    cbn [letters] in H. rewrite Sn in H.
    destruct (getopt_long_in_cluster f _ d li rest c H Hf Sn)
      as (d1 & G & A).
    destruct (IH Hc d1 li (effect a f) rest A) as (d2 & W & L).
    exists d2. split; [exact W |]. intros fuel.
    cbn [List.length Nat.add Parse_loop fold_left].
    rewrite G, code_not_end. destruct A as [-> _].
    rewrite <- Ar, Parse_switch_code. apply L.
Qed.

(** X17: letters of flags that take no argument can be written behind one
    dash: the cluster acts as the flags written one by one in that order, in
    the middle of any flags and operands. *)
Theorem cluster_is_its_flags (tr absoluteFilePath : string -> string)
    (prog : string) (ws1 ws2 : list word) (f : flag) (fs : list flag) :
  forallb well_formed ws1 = true ->
  forallb well_formed ws2 = true ->
  forallb clusterable (f :: fs) = true ->
  let a := CommandlineOptions_new
             (prog :: command_line ws1 ++ cluster (f :: fs)
                   :: command_line ws2) in
  exists a',
    Parse tr absoluteFilePath a = Some (true, a', []) /\
    same_fields a' (effects ws2 (fold_left effect (f :: fs) (effects ws1 a))).
Proof.
  intros H1 H2 Hc a.
  cbn [forallb] in Hc. apply andb_true_iff in Hc. destruct Hc as [Hf Hc].
  pose proof (at_words_initialize prog
                (command_line ws1 ++ cluster (f :: fs) :: command_line ws2))
    as H.
  destruct (Parse_loop_words tr ws1 H1 _ _ 0 a _ H eq_refl)
    as (d1 & li1 & ops1 & Ho1 & W1 & L1).
  destruct (getopt_long_cluster f fs d1 li1 ops1 _ W1 Ho1 Hf)
    as (d2 & G & A).
  destruct (Parse_loop_cluster tr fs Hc d2 li1 (effect (effects ws1 a) f) _ A)
    as (d3 & W3 & L3).
  rewrite <- (app_nil_r (command_line ws2)) in W3.
  destruct (Parse_loop_words tr ws2 H2 [] d3 li1
              (fold_left effect fs (effect (effects ws1 a) f)) [] W3 eq_refl)
    as (d4 & li4 & ops4 & Ho4 & W4 & L4).
  rewrite app_nil_r in W4.
  destruct (getopt_long_at_end d4 li4 ops4 W4 Ho4) as (d5 & G5 & _).
  assert (E : Parse_loop tr
                (List.length (flags ws1)
                 + S (List.length fs + (List.length (flags ws2) + 1)))
                (getopt_initialize (argv_ a)) 0 a
              = Some (Break d5 li4
                        (effects ws2
                           (fold_left effect (f :: fs) (effects ws1 a))))).
  { cbn [argv_ a CommandlineOptions_new]. rewrite L1. cbn [Parse_loop].
    rewrite G, code_not_end. destruct A as [-> _].
    destruct (clusterable_letter f Hf) as (c & _ & Ar & _).
    rewrite <- Ar, Parse_switch_code, L3, L4. cbn [Parse_loop].
    rewrite G5. reflexivity. }
  rewrite (Parse_of_loop tr absoluteFilePath _ _ _ E).
  eexists. split; [reflexivity | apply same_fields_result].
Qed.

Lemma cluster_is_its_flags_witness :
  forallb well_formed [Operand "a.mp3"] = true /\
  forallb well_formed [Flag Long F_volume_up] = true /\
  forallb clusterable [F_play; F_append; F_show_osd] = true /\
  clusterable F_volume_up = false /\
  cluster [F_play; F_append; F_show_osd] = "-pao"%string /\
  exists a',
    Parse (fun s => s) (fun s => s)
      (CommandlineOptions_new ["clementine"; "a.mp3"; "-pao"; "--volume-up"])
    = Some (true, a', []) /\
    player_action_ a' = Player_Play /\ volume_modifier_ a' = 4%Z /\
    show_osd_ a' = true.
Proof.
  split; [reflexivity |]. split; [reflexivity |]. split; [reflexivity |].
  split; [reflexivity |]. split; [reflexivity |].
  destruct (cluster_is_its_flags (fun s => s) (fun s => s) "clementine"
              [Operand "a.mp3"] [Flag Long F_volume_up] F_play
              [F_append; F_show_osd] eq_refl eq_refl eq_refl)
    as (a' & E & F).
  exists a'. split; [exact E |]. split; [exact (F player_action) |].
  split; [exact (F volume_modifier) |].
  pose proof (F show_osd) as S1. cbn in S1.
  destruct (show_osd_ a'); [reflexivity | discriminate S1].
Defined.
